(** * kompresiRLe: the block-DCT compressor of [kompresiRLe.py]

    A shallow embedding of the processing core of [DCTCompressorApp]
    ([process_channel_dct], the two quantization-table builders,
    [apply_dct], [_apply_dct_thread], [calculate_metrics]) and the
    properties its specification states about it.

    Conventions.
    - [uint8] samples are integers [Z], with the wrap-around modulo 256
      written out where numpy wraps.
    - Python [float] scalars computed from integers (the compression
      ratio, the progress values, the entries of the custom table, the
      mean squared error) are evaluated in IEEE-754 binary64 with the
      operations of [SpecFloat]; a store into a [float32] array rounds
      to binary32.
    - The contents of the [float32] blocks that flow through OpenCV are
      rationals [Q]: every finite float is a rational, and the array
      arithmetic around the transforms is taken exact (division is the
      exact quotient; the infinities numpy produces for a zero divisor
      are not modelled).
    - Numpy arrays live in a store: a variable holds a reference, [-=],
      [+=] and a slice assignment write through it, [.copy()] and the
      arithmetic operators allocate.
    - A Python exception is an outcome of its own ([None], [Raised]); the
      [try ... except] of the thread turns it into "Processing failed".
    - OpenCV and [math] functions ([cv2.dct], [cv2.idct], [cv2.resize],
      the pixel maps of [cv2.cvtColor], [log10]) are parameters of the
      development: they are not code of this program. *)

From Stdlib Require Import ZArith QArith Qminmax Qround Qabs Lqa Floats.SpecFloat String Sorted Lia.
From stdpp Require Import base option list strings gmap relations.

Local Open Scope nat_scope.

(** ** IEEE-754 arithmetic *)

Module Ieee.

Definition add64 := SFadd 53 1024.
Definition mul64 := SFmul 53 1024.
Definition div64 := SFdiv 53 1024.
Definition sqrt64 := SFsqrt 53 1024.

(** An integer as a binary64 number (exact below 2^53). *)
Definition of_Z (z : Z) : spec_float := binary_normalize 53 1024 z 0 false.

(** Rounding of a binary64 number to binary32, as a store into a
    [float32] array does. *)
Definition to_f32 (x : spec_float) : spec_float :=
  match x with
  | S754_finite s m e => binary_normalize 24 128 (cond_Zopp s (Zpos m)) e s
  | _ => x
  end.

Definition is_finite (x : spec_float) : bool :=
  match x with
  | S754_zero _ | S754_finite _ _ _ => true
  | _ => false
  end.

(** The rational a finite float denotes; infinities and NaN denote
    none and are sent to 0. *)
Definition to_Q (x : spec_float) : Q :=
  match x with
  | S754_finite s m e =>
      let mag := match e with
                 | Zneg p => Qmake (Zpos m) (2 ^ p)
                 | _ => inject_Z (Zpos m * 2 ^ e)
                 end in
      if s then Qopp mag else mag
  | _ => 0%Q
  end.

End Ieee.

(** ** Two-dimensional arrays *)

Abbreviation matrix A := (list (list A)).

Definition tabulate {A : Type} (rows cols : nat) (f : nat -> nat -> A) : matrix A :=
  (fun i => (fun j => f i j) <$> seq 0 cols) <$> seq 0 rows.

Definition rows_of {A : Type} (m : matrix A) : nat := length m.
Definition cols_of {A : Type} (m : matrix A) : nat :=
  match m with [] => 0 | r :: _ => length r end.

(** [m[i, j]] where the array has such a cell. *)
Definition lookup2 {A : Type} (m : matrix A) (i j : nat) : option A :=
  m !! i ≫= fun r : list A => r !! j.

(** [m[i, j]], 0 outside the array. *)
Definition getQ (m : matrix Q) (i j : nat) : Q := default 0%Q (lookup2 m i j).
Definition getZ (m : matrix Z) (i j : nat) : Z := default 0%Z (lookup2 m i j).

(** An array of shape [(h, w)]. *)
Definition rect {A : Type} (m : matrix A) (h w : nat) : Prop :=
  length m = h /\ Forall (fun r : list A => length r = w) m.

Definition mmap {A B : Type} (f : A -> B) (m : matrix A) : matrix B :=
  (fun row : list A => f <$> row) <$> m.
Definition mzip {A B C : Type} (f : A -> B -> C) (m1 : matrix A) (m2 : matrix B) : matrix C :=
  zip_with (zip_with f) m1 m2.

(** [a[y:y+n, x:x+n]]: numpy clips a slice to the extent of the array. *)
Definition slice2 {A : Type} (m : matrix A) (y x n : nat) : matrix A :=
  (fun r => take n (drop x r)) <$> take n (drop y m).

(** [a[:r, :c]] *)
Definition top_left {A : Type} (m : matrix A) (r c : nat) : matrix A :=
  take c <$> take r m.

(** [np.clip(v, lo, hi)] is [minimum(maximum(v, lo), hi)]. *)
Definition np_clip (lo hi v : Q) : Q := Qmin (Qmax v lo) hi.

(** ** Quantization tables *)

Definition Qrow (l : list Z) : list Q := inject_Z <$> l.

Definition jpeg_luminance : matrix Q :=
  Qrow <$>
    [ [16; 11; 10; 16; 24; 40; 51; 61];
      [12; 12; 14; 19; 26; 58; 60; 55];
      [14; 13; 16; 24; 40; 57; 69; 56];
      [14; 17; 22; 29; 51; 87; 80; 62];
      [18; 22; 37; 56; 68; 109; 103; 77];
      [24; 35; 55; 64; 81; 104; 113; 92];
      [49; 64; 78; 87; 103; 121; 120; 101];
      [72; 92; 95; 98; 112; 100; 103; 99] ]%Z.

Definition base_q : matrix Q :=
  Qrow <$>
    [ [16; 11; 10; 16];
      [12; 12; 14; 19];
      [14; 13; 16; 24];
      [14; 17; 22; 29] ]%Z.

(** [matrix[i,j] = 1 + normalized * 50] of
    [create_custom_quantization_matrix], in binary64 as Python computes
    it, then rounded to the [float32] cell it is stored in. *)
Definition custom_entry (size i j : nat) : spec_float :=
  let distance := Ieee.sqrt64 (Ieee.of_Z (Z.of_nat (i ^ 2 + j ^ 2))) in
  let normalized :=
    Ieee.div64 distance (Ieee.sqrt64 (Ieee.of_Z (Z.of_nat (2 * size ^ 2)))) in
  Ieee.to_f32 (Ieee.add64 (Ieee.of_Z 1) (Ieee.mul64 normalized (Ieee.of_Z 50))).

Definition create_custom_quantization_matrix (size : nat) : matrix Q :=
  tabulate size size (fun i j => Ieee.to_Q (custom_entry size i j)).

Section OpenCV.

(** [cv2.resize(src, (w, h), interpolation=cv2.INTER_LINEAR)[i, j]] *)
Variable resize_linear : matrix Q -> nat -> nat -> nat -> nat -> Q.

Definition cv_resize (src : matrix Q) (w h : nat) : matrix Q :=
  tabulate h w (resize_linear src w h).

Definition create_jpeg_quantization_matrix (size : nat) : matrix Q :=
  if size =? 8 then jpeg_luminance
  else mmap (np_clip 1 255) (cv_resize base_q size size).

(** The table selected at the head of [process_channel_dct]. *)
Definition select_q_matrix (quantization : string) (block_size : nat) : matrix Q :=
  if String.eqb quantization "Standard JPEG" then
    create_jpeg_quantization_matrix block_size
  else if String.eqb quantization "Uniform" then
    replicate block_size (replicate block_size 1%Q)
  else
    create_custom_quantization_matrix block_size.

End OpenCV.

(** ** Numpy element operations *)

(** [np.round]: to the nearest integer, a tie to the even neighbour. *)
Definition np_round (q : Q) : Z :=
  let f := Qfloor q in
  match Qcompare (q - inject_Z f) (1 # 2) with
  | Lt => f
  | Gt => (f + 1)%Z
  | Eq => if Z.even f then f else (f + 1)%Z
  end.

(** The C conversion of [astype(np.uint8)]: the fraction is dropped
    (rounding toward zero) and the integer kept modulo 256. *)
Definition astype_uint8 (q : Q) : Z :=
  (Z.quot (Qnum q) (Zpos (Qden q))) mod 256.

(** [range(0, stop, step)]. Python raises [ValueError] for [step = 0];
    block sizes are positive, the list is empty there. *)
Definition py_range (stop step : nat) : list nat :=
  (fun k => k * step) <$> seq 0 ((stop + step - 1) / step).

Definition in_slice (start n i : nat) : bool := (start <=? i) && (i <? start + n).

(** The slice [[y:y+n, x:x+n]] at origin [o = (y, x)] covers the cell
    [(r, c)]. *)
Definition covers (n r c : nat) (o : nat * nat) : bool :=
  in_slice o.1 n r && in_slice o.2 n c.

(** [a[y:y+n, x:x+n] = v] on the value of [a]: the cells of the slice
    (clipped to [a]) take the entries of [v]. *)
Definition assign_slice (a : matrix Q) (y x n : nat) (v : matrix Q) : matrix Q :=
  imap (fun r row =>
          imap (fun c old =>
                  if covers n r c (y, x)
                  then getQ v (r - y) (c - x) else old) row) a.

(** The cells [a[y:y+n, x:x+n]] addresses. *)
Definition slice_cells (a : matrix Q) (y x n : nat) : list (nat * nat) :=
  r ← seq y (Nat.min n (rows_of a - y));
  c ← seq x (Nat.min n (cols_of a - x));
  [(r, c)].

(** ** A store of numpy arrays

    Arrays are objects: a name is a reference, [-=] and a slice
    assignment write through it, [.copy()] and the arithmetic
    operators make a new one. The store also keeps the log of the cells
    written by slice assignments. *)

Definition loc := nat.

Record store := Store {
  heap : list (matrix Q);
  wlog : list (loc * nat * nat)
}.

Definition M (A : Type) : Type := store -> A * store.

#[global] Instance M_ret : MRet M := fun A a s => (a, s).
#[global] Instance M_bind : MBind M :=
  fun A B f m s => let '(a, s') := m s in f a s'.

Definition alloc (a : matrix Q) : M loc :=
  fun s => (length (heap s), Store (heap s ++ [a]) (wlog s)).

Definition load (l : loc) : M (matrix Q) :=
  fun s => (default [] (heap s !! l), s).

(** [a op= ...]: the array at [l] is rewritten in place. *)
Definition modify (l : loc) (f : matrix Q -> matrix Q) : M unit :=
  fun s => (tt, Store (alter f l (heap s)) (wlog s)).

Definition store_slice (l : loc) (y x n : nat) (v : matrix Q) : M unit :=
  fun s =>
    let a := default [] (heap s !! l) in
    (tt, Store (<[l := assign_slice a y x n v]> (heap s))
               (wlog s ++ ((fun rc => (l, rc.1, rc.2)) <$> slice_cells a y x n))).

Fixpoint foldM {A B : Type} (f : B -> A -> M B) (b : B) (l : list A) : M B :=
  match l with
  | [] => mret b
  | a :: l' => b' ← f b a; foldM f b' l'
  end.

(** ** The block codec *)

Section Codec.

(** [cv2.dct(src)[i, j]] and [cv2.idct(src)[i, j]]; the result of
    either has the size of [src]. *)
Variable dct_entry idct_entry : matrix Q -> nat -> nat -> Q.
Variable resize_linear : matrix Q -> nat -> nat -> nat -> nat -> Q.

Definition cv_dct (src : matrix Q) : matrix Q :=
  imap (fun i row => imap (fun j _ => dct_entry src i j) row) src.
Definition cv_idct (src : matrix Q) : matrix Q :=
  imap (fun i row => imap (fun j _ => idct_entry src i j) row) src.

(** [q_matrix] after the scaling by the compression level. *)
Definition scaled_q_matrix (quantization : string) (block_size : nat)
    (compression_level : Q) : matrix Q :=
  mmap (fun q => q * (1 + (1 - compression_level) * 10))%Q
       (select_q_matrix resize_linear quantization block_size).

(** The body of the two loops, for the block at [(y, x)]; the result
    is the reference appended to [coeffs]. *)
Definition process_block (channel : matrix Z) (block_size : nat)
    (q_matrix : matrix Q) (processed : loc) (y x : nat) : M loc :=
  (* block = channel[y:y+block_size, x:x+block_size].astype(np.float32) *)
  block ← alloc (mmap inject_Z (slice2 channel y x block_size));
  (* block -= 128 *)
  _ ← modify block (mmap (fun v => v - 128)%Q);
  b ← load block;
  (* dct_block = cv2.dct(block) *)
  dct_block ← alloc (cv_dct b);
  d ← load dct_block;
  (* quantized = np.round(dct_block / q_matrix[:block.shape[0], :block.shape[1]]) *)
  let q_sub := top_left q_matrix (rows_of b) (cols_of b) in
  quantized ← alloc (mmap (fun v => inject_Z (np_round v)) (mzip Qdiv d q_sub));
  (* coeffs.append(quantized.copy()) *)
  qv ← load quantized;
  copy ← alloc qv;
  (* dequantized = quantized * q_matrix[:block.shape[0], :block.shape[1]] *)
  qv ← load quantized;
  dequantized ← alloc (mzip Qmult qv q_sub);
  (* idct_block = cv2.idct(dequantized) *)
  dq ← load dequantized;
  idct_block ← alloc (cv_idct dq);
  (* idct_block += 128 *)
  _ ← modify idct_block (mmap (fun v => v + 128)%Q);
  (* idct_block = np.clip(idct_block, 0, 255) *)
  iv ← load idct_block;
  clipped ← alloc (mmap (np_clip 0 255) iv);
  (* processed[y:y+block_size, x:x+block_size] = idct_block *)
  cv ← load clipped;
  _ ← store_slice processed y x block_size cv;
  mret copy.

Definition process_channel_dct (channel : matrix Z) (block_size : nat)
    (compression_level : Q) (quantization : string) : M (matrix Z * list loc) :=
  let height := rows_of channel in
  let width := cols_of channel in
  processed ← alloc (mmap (fun _ => 0%Q) channel);
  let q_matrix := scaled_q_matrix quantization block_size compression_level in
  coeffs ←
    foldM (fun coeffs y =>
             foldM (fun coeffs x =>
                      c ← process_block channel block_size q_matrix processed y x;
                      mret (coeffs ++ [c]))
                   coeffs (py_range width block_size))
          [] (py_range height block_size);
  p ← load processed;
  mret (mmap astype_uint8 p, coeffs).

End Codec.

(** ** What one block computes

    The values of the arrays of one loop iteration, named after the
    variables of [process_channel_dct]. *)

Section BlockValues.

Variable dct_entry idct_entry : matrix Q -> nat -> nat -> Q.
Variable q_matrix : matrix Q.
Variable channel : matrix Z.
Variable block_size : nat.

(** [block] after [block -= 128] *)
Definition block_shifted (y x : nat) : matrix Q :=
  mmap (fun v => v - 128)%Q (mmap inject_Z (slice2 channel y x block_size)).

Definition block_q_sub (y x : nat) : matrix Q :=
  top_left q_matrix (rows_of (block_shifted y x)) (cols_of (block_shifted y x)).

Definition block_dct (y x : nat) : matrix Q :=
  cv_dct dct_entry (block_shifted y x).

Definition block_quantized (y x : nat) : matrix Q :=
  mmap (fun v => inject_Z (np_round v)) (mzip Qdiv (block_dct y x) (block_q_sub y x)).

Definition block_dequantized (y x : nat) : matrix Q :=
  mzip Qmult (block_quantized y x) (block_q_sub y x).

(** [idct_block] after [idct_block += 128] *)
Definition block_restored (y x : nat) : matrix Q :=
  mmap (fun v => v + 128)%Q (cv_idct idct_entry (block_dequantized y x)).

Definition block_clipped (y x : nat) : matrix Q :=
  mmap (np_clip 0 255) (block_restored y x).

(** The arrays one iteration leaves in the store, in allocation order:
    [block], [dct_block], [quantized], its copy, [dequantized],
    [idct_block], the clipped [idct_block]. *)
Definition block_arrays (y x : nat) : list (matrix Q) :=
  [ block_shifted y x; block_dct y x; block_quantized y x; block_quantized y x;
    block_dequantized y x; block_restored y x; block_clipped y x ].

(** [processed] after the iterations at the origins [os]. *)
Definition processed_after (p0 : matrix Q) (os : list (nat * nat)) : matrix Q :=
  foldl (fun p o => assign_slice p o.1 o.2 block_size (block_clipped o.1 o.2)) p0 os.

(** The body of the loops, on the origin [o]. *)
Definition loop_body (processed : loc) (coeffs : list loc) (o : nat * nat) : M (list loc) :=
  c ← process_block dct_entry idct_entry channel block_size q_matrix processed o.1 o.2;
  mret (coeffs ++ [c]).

End BlockValues.

(** The block origins in the order of the two loops. *)
Definition scan (height width block_size : nat) : list (nat * nat) :=
  y ← py_range height block_size;
  x ← py_range width block_size;
  [(y, x)].

(** The origin of the block that holds index [i]. *)
Definition origin_of (bs i : nat) : nat := i / bs * bs.


(** ** Images and the application state *)

(** A [uint8] image: two-dimensional (one sample per pixel) or
    three-dimensional (a list of samples per pixel). *)
Inductive ndarray :=
| Arr2 (m : matrix Z)
| Arr3 (m : matrix (list Z)).

Definition ndim (a : ndarray) : nat :=
  match a with Arr2 _ => 2 | Arr3 _ => 3 end.

(** [img.shape[2]] *)
Definition channels_of (m : matrix (list Z)) : nat :=
  match m with (px :: _) :: _ => length px | _ => 0 end.

Definition flatten (a : ndarray) : list Z :=
  match a with Arr2 m => concat m | Arr3 m => concat (concat m) end.

(** The lengths along every axis. *)
Definition shape_eqb (a b : ndarray) : bool :=
  match a, b with
  | Arr2 m1, Arr2 m2 => bool_decide ((length <$> m1) = (length <$> m2))
  | Arr3 m1, Arr3 m2 =>
      bool_decide (((fun row : list (list Z) => length <$> row) <$> m1)
                   = ((fun row : list (list Z) => length <$> row) <$> m2))
  | _, _ => false
  end.

Inductive cvt_code :=
| COLOR_BGR2YCrCb | COLOR_BGR2GRAY | COLOR_YCrCb2BGR | COLOR_GRAY2BGR.

(** The fields of [DCTCompressorApp] the processing reads and writes.
    [progress_var] keeps every value set, the latest last; [block_size]
    is the integer before the [x] of the combo box entry; [arrays] is
    the store of the coefficient arrays. *)
Record DCTCompressorApp := MkApp {
  original_image : option ndarray;
  processed_image : option ndarray;
  dct_coefficients : option (list (list loc));
  compression_ratio : spec_float;
  psnr_value : spec_float;
  compression_level : Z;
  block_size : nat;
  color_space : string;
  quantization : string;
  progress_var : list spec_float;
  status_message : string;
  arrays : store
}.

Definition set_progress (v : spec_float) (st : DCTCompressorApp) : DCTCompressorApp :=
  MkApp (original_image st) (processed_image st) (dct_coefficients st)
      (compression_ratio st) (psnr_value st) (compression_level st)
      (block_size st) (color_space st) (quantization st)
      (progress_var st ++ [v]) (status_message st) (arrays st).

Definition set_status (msg : string) (st : DCTCompressorApp) : DCTCompressorApp :=
  MkApp (original_image st) (processed_image st) (dct_coefficients st)
      (compression_ratio st) (psnr_value st) (compression_level st)
      (block_size st) (color_space st) (quantization st)
      (progress_var st) msg (arrays st).

Definition set_arrays (s : store) (st : DCTCompressorApp) : DCTCompressorApp :=
  MkApp (original_image st) (processed_image st) (dct_coefficients st)
      (compression_ratio st) (psnr_value st) (compression_level st)
      (block_size st) (color_space st) (quantization st)
      (progress_var st) (status_message st) s.

Definition set_result (img : ndarray) (coeffs : list (list loc)) (st : DCTCompressorApp) : DCTCompressorApp :=
  MkApp (original_image st) (Some img) (Some coeffs)
      (compression_ratio st) (psnr_value st) (compression_level st)
      (block_size st) (color_space st) (quantization st)
      (progress_var st) (status_message st) (arrays st).

Definition set_psnr (psnr : spec_float) (st : DCTCompressorApp) : DCTCompressorApp :=
  MkApp (original_image st) (processed_image st) (dct_coefficients st)
      (compression_ratio st) psnr (compression_level st)
      (block_size st) (color_space st) (quantization st)
      (progress_var st) (status_message st) (arrays st).

Definition set_ratio (ratio : spec_float) (st : DCTCompressorApp) : DCTCompressorApp :=
  MkApp (original_image st) (processed_image st) (dct_coefficients st)
      ratio (psnr_value st) (compression_level st)
      (block_size st) (color_space st) (quantization st)
      (progress_var st) (status_message st) (arrays st).

(** How a method ends: it returns, or an exception leaves it; either
    way with the state reached so far. *)
Inductive outcome :=
| Returned (st : DCTCompressorApp)
| Raised (st : DCTCompressorApp).

(** [show_progress]: showing the bar resets it to 0, hiding it sets
    nothing. *)
Definition show_progress (show : bool) (st : DCTCompressorApp) : DCTCompressorApp :=
  if show then set_progress (Ieee.of_Z 0) st else st.

(** ** Metrics *)

(** [uint8] arithmetic wraps modulo 256. *)
Definition uint8_sub (a b : Z) : Z := ((a - b) mod 256)%Z.
Definition uint8_sq (a : Z) : Z := ((a * a) mod 256)%Z.

(** [np.mean] of a [uint8] array: the sum in binary64 (exact, the
    samples are below 256) divided by the number of samples. *)
Definition np_mean (l : list Z) : spec_float :=
  Ieee.div64 (Ieee.of_Z (foldr Z.add 0%Z l)) (Ieee.of_Z (Z.of_nat (length l))).

(** [np.mean((a - b) ** 2)]; arrays of different shapes do not
    subtract ([None] is the exception). *)
Definition np_mse (a b : ndarray) : option spec_float :=
  if shape_eqb a b
  then Some (np_mean (zip_with (fun x y => uint8_sq (uint8_sub x y)) (flatten a) (flatten b)))
  else None.

(** The value [20 + (i+1)*60/len(channels)] set after channel [i] of [n]; the
    quotient of two integers is their correctly rounded quotient. *)
Definition channel_progress (n i : nat) : spec_float :=
  Ieee.add64 (Ieee.of_Z 20)
    (Ieee.div64 (Ieee.of_Z (Z.of_nat ((i + 1) * 60))) (Ieee.of_Z (Z.of_nat n))).

(** Python's [x / y] on floats: [ZeroDivisionError] ([None]) for a zero
    divisor. *)
Definition py_div (x y : spec_float) : option spec_float :=
  if SFeqb y (S754_zero false) then None else Some (Ieee.div64 x y).

(** [1.0 / (1.0 + (100 - level) / 100.0)] *)
Definition ratio_of_level (level : Z) : option spec_float :=
  py_div (Ieee.of_Z 1)
    (Ieee.add64 (Ieee.of_Z 1) (Ieee.div64 (Ieee.of_Z (100 - level)) (Ieee.of_Z 100))).

Section App.

Variable dct_entry idct_entry : matrix Q -> nat -> nat -> Q.
Variable resize_linear : matrix Q -> nat -> nat -> nat -> nat -> Q.
(** The pixel maps of [cv2.cvtColor] and [math.log10]. *)
Variable bgr2ycrcb ycrcb2bgr : Z * Z * Z -> Z * Z * Z.
Variable bgr2gray : Z * Z * Z -> Z.
Variable log10 : spec_float -> spec_float.

Definition pixel3 (px : list Z) : option (Z * Z * Z) :=
  match px with [a; b; c] => Some (a, b, c) | _ => None end.

Definition of_triple (t : Z * Z * Z) : list Z := [t.1.1; t.1.2; t.2].

(** [cv2.cvtColor(img, code)]; [None] is the [cv2.error] raised for an
    image without the channels the code converts. *)
Definition cvtColor (img : ndarray) (code : cvt_code) : option ndarray :=
  match code, img with
  | COLOR_BGR2YCrCb, Arr3 m =>
      Arr3 <$> mapM (mapM (fun px => of_triple <$> (bgr2ycrcb <$> pixel3 px))) m
  | COLOR_YCrCb2BGR, Arr3 m =>
      Arr3 <$> mapM (mapM (fun px => of_triple <$> (ycrcb2bgr <$> pixel3 px))) m
  | COLOR_BGR2GRAY, Arr3 m =>
      Arr2 <$> mapM (mapM (fun px => bgr2gray <$> pixel3 px)) m
  | COLOR_GRAY2BGR, Arr2 m =>
      Some (Arr3 (mmap (fun g => [g; g; g]) m))
  | _, _ => None
  end.

(** [cv2.split] *)
Definition cv_split (img : ndarray) : list (matrix Z) :=
  match img with
  | Arr2 m => [m]
  | Arr3 m => (fun k => mmap (fun px : list Z => default 0%Z (px !! k)) m) <$> seq 0 (channels_of m)
  end.

(** [cv2.merge]; [None] for no plane or planes of different sizes. *)
Definition cv_merge (planes : list (matrix Z)) : option ndarray :=
  match planes with
  | [] => None
  | p0 :: rest =>
      if forallb (fun p => shape_eqb (Arr2 p0) (Arr2 p)) rest
      then Some (Arr3 (imap (fun r row =>
                               imap (fun c (_ : Z) => (fun p => getZ p r c) <$> planes) row) p0))
      else None
  end.

(** [float('inf')] for a zero mean, else
    [20 * log10(max_pixel / sqrt(mse))]; the divisor is the square root
    of a mean that is not zero. *)
Definition psnr_of_mse (mse : spec_float) : spec_float :=
  if SFeqb mse (S754_zero false) then S754_infinity false
  else Ieee.mul64 (Ieee.of_Z 20)
         (log10 (Ieee.div64 (Ieee.of_Z 255) (Ieee.sqrt64 mse))).

(** The mean squared error of either branch; [None] is an exception
    raised on the way. *)
Definition metrics_mse (st : DCTCompressorApp) : option spec_float :=
  o ← original_image st;
  p ← processed_image st;
  if (ndim o =? 3) && (ndim p =? 3) then np_mse o p
  else
    original_gray ← cvtColor o COLOR_BGR2GRAY;
    processed_gray ← cvtColor p COLOR_BGR2GRAY;
    np_mse original_gray processed_gray.

(** [psnr_value] is assigned before the ratio is computed. *)
Definition calculate_metrics (st : DCTCompressorApp) : outcome :=
  match metrics_mse st with
  | None => Raised st
  | Some mse =>
      let st := set_psnr (psnr_of_mse mse) st in
      match ratio_of_level (compression_level st) with
      | None => Raised st
      | Some ratio => Returned (set_ratio ratio st)
      end
  end.

(** One turn of [for i, channel in enumerate(channels)]. *)
Definition channel_step (n : nat) (block_size : nat) (compression_level : Q)
    (quantization : string)
    (acc : list (matrix Z) * list (list loc) * DCTCompressorApp) (ic : nat * matrix Z)
    : list (matrix Z) * list (list loc) * DCTCompressorApp :=
  let '(processed_channels, dct_coeffs, st) := acc in
  let '((processed, coeffs), s) :=
    process_channel_dct dct_entry idct_entry resize_linear
      ic.2 block_size compression_level quantization (arrays st) in
  (processed_channels ++ [processed], dct_coeffs ++ [coeffs],
   set_progress (channel_progress n ic.1) (set_arrays s st)).

Definition enumerate {A : Type} (l : list A) : list (nat * A) :=
  zip (seq 0 (length l)) l.

(** The [except] branch. *)
Definition processing_failed (st : DCTCompressorApp) : DCTCompressorApp :=
  set_status "Processing failed" st.

(** The body of the thread, run to its end, with the [finally] branch
    applied to what the [try] leaves; the timing and the other callbacks
    queued for the main loop are left out. *)
Definition _apply_dct_thread (st : DCTCompressorApp) (compression_level : Q) (block_size : nat)
    (color_space quantization : string) : DCTCompressorApp :=
  show_progress false (
  let st := set_progress (Ieee.of_Z 10) st in
  let channels :=
    img ← original_image st;
    if String.eqb color_space "YCbCr" then
      cv_split <$> cvtColor img COLOR_BGR2YCrCb
    else if String.eqb color_space "Grayscale" then
      (fun img_gray => match img_gray with Arr2 m => [m] | Arr3 _ => [] end)
        <$> cvtColor img COLOR_BGR2GRAY
    else Some (cv_split img) in
  match channels with
  | None => processing_failed st
  | Some channels =>
      let st := set_progress (Ieee.of_Z 20) st in
      let '(processed_channels, dct_coeffs, st) :=
        foldl (channel_step (length channels) block_size compression_level quantization)
              ([], [], st) (enumerate channels) in
      let merged :=
        match processed_channels with
        | [p] => Some (Arr2 p)
        | _ => cv_merge processed_channels
        end in
      let processed_img :=
        img ← merged;
        if String.eqb color_space "YCbCr" then cvtColor img COLOR_YCrCb2BGR
        else if String.eqb color_space "Grayscale" then cvtColor img COLOR_GRAY2BGR
        else Some img in
      match processed_img with
      | None => processing_failed st
      | Some processed_img =>
          let st := set_result processed_img dct_coeffs st in
          match calculate_metrics st with
          | Raised st => processing_failed st
          | Returned st => set_status "Processing completed" st
          end
      end
  end).

Definition apply_dct (st : DCTCompressorApp) : DCTCompressorApp :=
  match original_image st with
  | None => st
  | Some _ =>
      let compression_level := (inject_Z (compression_level st) / 100)%Q in
      let st := show_progress true st in
      let st := set_status "Applying DCT compression..." st in
      _apply_dct_thread st compression_level (block_size st) (color_space st)
        (quantization st)
  end.

End App.

(** ** The reconstruction as a value *)

Section Reconstruction.

Variable dct_entry idct_entry : matrix Q -> nat -> nat -> Q.
Variable resize_linear : matrix Q -> nat -> nat -> nat -> nat -> Q.
Variable bgr2ycrcb ycrcb2bgr : Z * Z * Z -> Z * Z * Z.
Variable bgr2gray : Z * Z * Z -> Z.
Variable log10 : spec_float -> spec_float.

(** The plane [process_channel_dct] returns for [channel], computed in
    the empty store. *)
Definition plane_of (block_size : nat) (compression_level : Q) (quantization : string)
    (channel : matrix Z) : matrix Z :=
  (process_channel_dct dct_entry idct_entry resize_linear
     channel block_size compression_level quantization (Store [] [])).1.1.

(** The image [_apply_dct_thread] assigns to [processed_image] for the
    original [img]: split, code every plane, merge, convert back.
    [None] when a conversion or the merge raises. *)
Definition reconstruction (img : ndarray) (compression_level : Q) (block_size : nat)
    (color_space quantization : string) : option ndarray :=
  let channels :=
    if String.eqb color_space "YCbCr" then
      cv_split <$> cvtColor bgr2ycrcb ycrcb2bgr bgr2gray img COLOR_BGR2YCrCb
    else if String.eqb color_space "Grayscale" then
      (fun img_gray => match img_gray with Arr2 m => [m] | Arr3 _ => [] end)
        <$> cvtColor bgr2ycrcb ycrcb2bgr bgr2gray img COLOR_BGR2GRAY
    else Some (cv_split img) in
  match channels with
  | None => None
  | Some channels =>
      let merged :=
        match plane_of block_size compression_level quantization <$> channels with
        | [p] => Some (Arr2 p)
        | planes => cv_merge planes
        end in
      img ← merged;
      if String.eqb color_space "YCbCr" then
        cvtColor bgr2ycrcb ycrcb2bgr bgr2gray img COLOR_YCrCb2BGR
      else if String.eqb color_space "Grayscale" then
        cvtColor bgr2ycrcb ycrcb2bgr bgr2gray img COLOR_GRAY2BGR
      else Some img
  end.

(** What [calculate_metrics] and the end of the thread make of the
    state the thread has reached when it has assigned the result. *)
Definition finish (st : DCTCompressorApp) : DCTCompressorApp :=
  match calculate_metrics bgr2ycrcb ycrcb2bgr bgr2gray log10 st with
  | Raised st => processing_failed st
  | Returned st => set_status "Processing completed" st
  end.

End Reconstruction.

(** ** The settings and the recent files *)

(** A value of the settings file as [json.load] returns it. *)
#[local] Unset Elimination Schemes.
Inductive json :=
| JNull
| JBool (b : bool)
| JInt (z : Z)
| JFloat (x : spec_float)
| JStr (s : string)
| JList (l : list json)
| JDict (d : list (string * json)).
#[local] Set Elimination Schemes.

(** [self.settings] when it is a dict ([load_settings] returns [{}]
    when the file is missing or unreadable, and what [json.load] makes
    of the file otherwise: the model covers a file that holds an
    object), and the value of [self.settings] at every call of
    [save_settings], the latest last. [save_settings] swallows every
    exception of the write; whether the file system takes the write is
    not part of the model. *)
Record Prefs := MkPrefs {
  settings : gmap string json;
  saved : list (gmap string json)
}.

Definition save_settings (p : Prefs) : Prefs :=
  MkPrefs (settings p) (saved p ++ [settings p]).

(** [filename == v] for the [str] [filename]: a string equals an equal
    string and nothing else. *)
Definition str_eq (filename : string) (v : json) : bool :=
  match v with JStr s => String.eqb filename s | _ => false end.

(** [l.remove(filename)], called when [filename in l]: the first
    equal entry is removed. *)
Fixpoint list_remove (filename : string) (l : list json) : list json :=
  match l with
  | [] => []
  | v :: l' => if str_eq filename v then l' else v :: list_remove filename l'
  end.

(** [None]: an exception leaves the method, before anything was
    changed or saved. A ['recent_files'] entry that is not a list has
    no [remove] or [insert] ([AttributeError]) or is not iterable
    ([TypeError]). *)
Definition add_to_recent_files (filename : string) (p : Prefs) : option Prefs :=
  (* if 'recent_files' not in self.settings: self.settings['recent_files'] = [] *)
  let s :=
    match settings p !! "recent_files"%string with
    | None => <["recent_files"%string := JList []]> (settings p)
    | Some _ => settings p
    end in
  match s !! "recent_files"%string with
  | Some (JList l) =>
      (* if filename in l: l.remove(filename) *)
      let l := if existsb (str_eq filename) l then list_remove filename l else l in
      (* l.insert(0, filename) *)
      let l := JStr filename :: l in
      (* if len(l) > 10: self.settings['recent_files'] = l[:10] *)
      let l := if 10 <? length l then take 10 l else l in
      Some (save_settings (MkPrefs (<["recent_files"%string := JList l]> s) (saved p)))
  | _ => None
  end.

Definition clear_recent_files (p : Prefs) : Prefs :=
  match settings p !! "recent_files"%string with
  | Some _ =>
      save_settings (MkPrefs (<["recent_files"%string := JList []]> (settings p)) (saved p))
  | None => p
  end.

(** ** The window: history, toolbar, loading *)

(** An entry of [self.history]. The two images are copies
    ([.copy()]); no method writes into an image array, so a copy and
    its source are the same value ever after. *)
Record history_entry := MkEntry {
  entry_timestamp : string;
  entry_compression : Z;
  entry_block_size : nat;
  entry_color_space : string;
  entry_psnr : spec_float;
  entry_original : ndarray;
  entry_processed : ndarray
}.

(** The buttons of [self.toolbar_buttons]: [true] is enabled. *)
Record toolbar := MkToolbar {
  btn_save : bool;
  btn_dct : bool;
  btn_compare : bool;
  btn_undo : bool;
  btn_redo : bool
}.

(** The application with its history, its toolbar, its settings and
    the file it has loaded. *)
Record Window := MkWindow {
  core : DCTCompressorApp;
  history : list history_entry;
  toolbar_buttons : toolbar;
  prefs : Prefs;
  filename : option string;
  file_size_before : spec_float
}.

Definition with_core (f : DCTCompressorApp -> DCTCompressorApp) (s : Window) : Window :=
  MkWindow (f (core s)) (history s) (toolbar_buttons s) (prefs s) (filename s)
    (file_size_before s).

Definition with_history (h : list history_entry) (s : Window) : Window :=
  MkWindow (core s) h (toolbar_buttons s) (prefs s) (filename s) (file_size_before s).

Definition with_toolbar (f : toolbar -> toolbar) (s : Window) : Window :=
  MkWindow (core s) (history s) (f (toolbar_buttons s)) (prefs s) (filename s)
    (file_size_before s).

Definition with_prefs (p : Prefs) (s : Window) : Window :=
  MkWindow (core s) (history s) (toolbar_buttons s) p (filename s) (file_size_before s).

Definition with_file (name : string) (s : Window) : Window :=
  MkWindow (core s) (history s) (toolbar_buttons s) (prefs s) (Some name)
    (file_size_before s).

Definition with_size (size : spec_float) (s : Window) : Window :=
  MkWindow (core s) (history s) (toolbar_buttons s) (prefs s) (filename s) size.

Definition set_original (img : option ndarray) (st : DCTCompressorApp) : DCTCompressorApp :=
  MkApp img (processed_image st) (dct_coefficients st)
      (compression_ratio st) (psnr_value st) (compression_level st)
      (block_size st) (color_space st) (quantization st)
      (progress_var st) (status_message st) (arrays st).

Definition set_processed (img : ndarray) (st : DCTCompressorApp) : DCTCompressorApp :=
  MkApp (original_image st) (Some img) (dct_coefficients st)
      (compression_ratio st) (psnr_value st) (compression_level st)
      (block_size st) (color_space st) (quantization st)
      (progress_var st) (status_message st) (arrays st).

(** [state(['!disabled'])] and [state(['disabled'])] on a button. *)
Definition set_undo (b : bool) (t : toolbar) : toolbar :=
  MkToolbar (btn_save t) (btn_dct t) (btn_compare t) b (btn_redo t).
Definition set_redo (b : bool) (t : toolbar) : toolbar :=
  MkToolbar (btn_save t) (btn_dct t) (btn_compare t) (btn_undo t) b.
Definition set_save_compare (b : bool) (t : toolbar) : toolbar :=
  MkToolbar b (btn_dct t) b (btn_undo t) (btn_redo t).
Definition set_dct (b : bool) (t : toolbar) : toolbar :=
  MkToolbar (btn_save t) b (btn_compare t) (btn_undo t) (btn_redo t).

(** How a callback of the main loop ends: it returns, or an exception
    leaves it with the state reached so far. *)
Inductive ended :=
| Done (s : Window)
| Failed (s : Window).

Definition state_of (e : ended) : Window :=
  match e with Done s | Failed s => s end.

(** [cv2.cvtColor(img, cv2.COLOR_BGR2RGB)]: the samples of every pixel
    in reverse order; [None] is the [cv2.error] for an array that is no
    three-channel image. *)
Definition bgr2rgb (img : ndarray) : option ndarray :=
  match img with
  | Arr3 m =>
      Arr3 <$> mapM (mapM (fun px : list Z =>
                             match px with [b; g; r] => Some [r; g; b] | _ => None end)) m
  | Arr2 _ => None
  end.

(** [now] is the string [datetime.now().strftime(...)] returns. *)
Definition add_to_history (now : string) (s : Window) : Window :=
  match original_image (core s), processed_image (core s) with
  | Some o, Some p =>
      with_toolbar (set_undo true)
        (with_history
           (history s ++
              [MkEntry now (compression_level (core s)) (block_size (core s))
                 (color_space (core s)) (psnr_value (core s)) o p]) s)
  | _, _ => s
  end.

Inductive canvas := original_canvas | processed_canvas.

Section Gui.

(** The environment of one callback. [display_image] and
    [update_histogram] draw: [true] when the call returns, [false] when
    it raises; what they draw is outside the model, and so are the
    labels of the information panel, whose updates are taken to
    return. [imread] is [cv2.imread] ([None] for a file it cannot read),
    [getsize] is [os.path.getsize] ([None] is its [OSError]) and
    [basename] is [os.path.basename]. *)
Variable display_image : canvas -> ndarray -> bool.
Variable update_histogram : ndarray -> bool.
Variable imread : string -> option ndarray.
Variable getsize : string -> option Z.
Variable basename : string -> string.

Definition _update_after_dct (now : string) (s : Window) : ended :=
  match processed_image (core s) with
  | None => Failed s
  | Some img =>
      match bgr2rgb img with
      | None => Failed s
      | Some processed_rgb =>
          if display_image processed_canvas processed_rgb then
            if update_histogram img then
              Done (add_to_history now (with_toolbar (set_save_compare true) s))
            else Failed s
          else Failed s
      end
  end.

Definition undo_action (s : Window) : ended :=
  (* if len(self.history) > 0: *)
  match last (history s) with
  | None => Done s
  | Some last_state =>
      (* last_state = self.history.pop() *)
      (* self.processed_image = last_state['processed'] *)
      let s :=
        with_core (set_processed (entry_processed last_state))
          (with_history (removelast (history s)) s) in
      match bgr2rgb (entry_processed last_state) with
      | None => Failed s
      | Some processed_rgb =>
          if display_image processed_canvas processed_rgb then
            if update_histogram (entry_processed last_state) then
              (* self.toolbar_buttons['redo'].state(['!disabled']) *)
              let s := with_toolbar (set_redo true) s in
              (* if len(self.history) == 0: ...['undo'].state(['disabled']) *)
              Done (match history s with
                    | [] => with_toolbar (set_undo false) s
                    | _ => s
                    end)
            else Failed s
          else Failed s
      end
  end.

(** [redo_action] is [pass]. *)
Definition redo_action (s : Window) : Window := s.

(** The [except] branch of [load_image]. *)
Definition loading_failed (s : Window) : Window :=
  with_core (set_status "Error loading image") s.

Definition load_image (name : string) (s : Window) : Window :=
  (* self.original_image = cv2.imread(filename) *)
  let s := with_core (set_original (imread name)) s in
  match imread name with
  | None => loading_failed s
  | Some img =>
      match bgr2rgb img with
      | None => loading_failed s
      | Some img_rgb =>
          (* self.filename = filename *)
          let s := with_file name s in
          (* self.file_size_before = os.path.getsize(filename) / 1024 *)
          match getsize name with
          | None => loading_failed s
          | Some size =>
              let s := with_size (Ieee.div64 (Ieee.of_Z size) (Ieee.of_Z 1024)) s in
              if display_image original_canvas img_rgb then
                if update_histogram img then
                  let s := with_toolbar
                             (fun t => set_save_compare false (set_dct true t)) s in
                  match add_to_recent_files name (prefs s) with
                  | None => loading_failed s
                  | Some p =>
                      with_core (set_status ("Loaded: " ++ basename name))
                        (with_prefs p s)
                  end
                else loading_failed s
              else loading_failed s
          end
      end
  end.

(** [open_image]: [choice] is what the file dialog returns, the empty
    string when it is cancelled. *)
Definition open_image (choice : string) (s : Window) : Window :=
  match choice with
  | EmptyString => s
  | String _ _ => load_image choice s
  end.

End Gui.

(** ** Vocabulary of the properties *)

(** A three-channel image of [h] rows and [w] columns, as [cv2.imread]
    returns it. *)
Definition bgr_image (img : ndarray) (h w : nat) : Prop :=
  match img with
  | Arr3 m => rect m h w /\ Forall (Forall (fun px : list Z => length px = 3)) m
  | Arr2 _ => False
  end.

(** Every entry of a table is at least 1, as a test. *)
Definition all_at_least_one (m : matrix Q) : bool :=
  forallb (forallb (Qle_bool 1)) m.

(** The mean squared error of the specification: the mean of the
    squared differences of the samples, as a rational. *)
Definition mean_squared_error (a b : list Z) : Q :=
  inject_Z (foldr Z.add 0%Z (zip_with (fun x y => (x - y) * (x - y))%Z a b))
  / inject_Z (Z.of_nat (length a)).

(** A 2 x 2 image with every sample [v], and the application state
    with an original and a reconstruction in place. *)
Definition flat_image (v : Z) : ndarray := Arr3 [[[v; v; v]; [v; v; v]]; [[v; v; v]; [v; v; v]]].

Definition metrics_state (original processed : ndarray) (level : Z) : DCTCompressorApp :=
  MkApp (Some original) (Some processed) (Some []) (Ieee.of_Z 1) (Ieee.of_Z 0)
        level 8 "RGB" "Uniform" [] "Ready" (Store [] []).

(** The ratio of the specification, as a rational. *)
Definition ratio_exact (level : Z) : Q := (1 / (1 + (100 - inject_Z level) / 100))%Q.

(** A float that is the ratio up to the rounding of binary64. *)
Definition ratio_close (level : Z) (r : spec_float) : Prop :=
  Ieee.is_finite r = true /\
  (Qabs (Ieee.to_Q r - ratio_exact level) <= 1 # 9007199254740992)%Q.

(** The tests evaluated over the slider range. *)
Definition ratio_entry_ok (a : Z) : bool :=
  match ratio_of_level a with
  | Some r =>
      Ieee.is_finite r
      && Qle_bool (Qabs (Ieee.to_Q r - ratio_exact a)) (1 # 9007199254740992)
  | None => false
  end.

Definition pos_finite (x : spec_float) : bool :=
  match x with S754_finite false _ _ => true | _ => false end.

Definition ratio_step_ok (a : Z) : bool :=
  match ratio_of_level a, ratio_of_level (a + 1) with
  | Some ra, Some rb => pos_finite ra && pos_finite rb && SFltb ra rb
  | _, _ => false
  end.




(** The recent files as a list: the entry of the settings, the empty
    list when there is none; [None] for an entry that is not a list. *)
Definition recent_files (p : Prefs) : option (list json) :=
  match settings p !! "recent_files"%string with
  | None => Some []
  | Some (JList l) => Some l
  | Some _ => None
  end.

(** Files opened one after the other. *)
Definition open_files (files : list string) (p : Prefs) : option Prefs :=
  foldl (fun acc f => acc ≫= add_to_recent_files f) (Some p) files.

(** What the guarded [remove] leaves. *)
Definition without (f : string) (l : list json) : list json :=
  if existsb (str_eq f) l then list_remove f l else l.

(** [k] presses of Undo, each run to its end; [display_image i] and
    [update_histogram i] say how the drawing calls of press [i] end. *)
Fixpoint undo_times (display_image : nat -> canvas -> ndarray -> bool)
    (update_histogram : nat -> ndarray -> bool) (k : nat) (s : Window) : Window :=
  match k with
  | 0 => s
  | S k =>
      state_of (undo_action (display_image k) (update_histogram k)
                  (undo_times display_image update_histogram k s))
  end.

(** A step of the application: the callback after a run, an undo, the
    loading of a file, each in an environment of its own, or any other
    method; of all the methods only [add_to_history] and [undo_action]
    touch the history and the Undo button. *)
Inductive transition : Window -> Window -> Prop :=
| after_run display_image update_histogram now s :
    transition s (state_of (_update_after_dct display_image update_histogram now s))
| after_undo display_image update_histogram s :
    transition s (state_of (undo_action display_image update_histogram s))
| after_load display_image update_histogram imread getsize basename name s :
    transition s
      (load_image display_image update_histogram imread getsize basename name s)
| after_other s s' :
    history s' = history s ->
    btn_undo (toolbar_buttons s') = btn_undo (toolbar_buttons s) ->
    transition s s'.

(** The tests on the custom table, evaluated for a size: the entry at
    the origin is 1, every entry lies in [1, 51), and the entries do not
    decrease along a row or along a column. *)
Definition custom_cell_ok (size : nat) (m : matrix Q) (i j : nat) : bool :=
  Qle_bool 1 (getQ m i j) && negb (Qle_bool 51 (getQ m i j))
  && ((size <=? S i) || Qle_bool (getQ m i j) (getQ m (S i) j))
  && ((size <=? S j) || Qle_bool (getQ m i j) (getQ m i (S j))).

Definition custom_table_ok (size : nat) : bool :=
  let m := create_custom_quantization_matrix size in
  Qeq_bool (getQ m 0 0) 1
  && forallb (fun i => forallb (custom_cell_ok size m i) (seq 0 size)) (seq 0 size).

(** The ratio inside the slider range: more than 1/2, at most 1, and 1
    at the value 100 only. *)
Definition ratio_range_ok (a : Z) : bool :=
  match ratio_of_level a with
  | Some r =>
      negb (Qle_bool (Ieee.to_Q r) (1 # 2)) && Qle_bool (Ieee.to_Q r) 1
      && Bool.eqb (Qeq_bool (Ieee.to_Q r) 1) (a =? 100)%Z
  | None => false
  end.

(** The ratio above the slider range: more than 1 up to 199, no value
    at 200, negative above. *)
Definition ratio_beyond_ok (a : Z) : bool :=
  match ratio_of_level a with
  | Some r =>
      if (a <? 200)%Z then negb (Qle_bool (Ieee.to_Q r) 1)
      else negb (a =? 200)%Z && negb (Qle_bool 0 (Ieee.to_Q r))
  | None => (a =? 200)%Z
  end.

(** A squared residue is 0 modulo 256 exactly for a multiple of 16,
    as a test. *)
Definition wraps_to_zero_ok (r : Z) : bool :=
  Bool.eqb ((r * r) mod 256 =? 0)%Z (r mod 16 =? 0)%Z.

(** ** Concrete instances of the parameters

    Used to run the model on examples. [dct2] is the orthonormal
    two-dimensional cosine transform of a 2 x 2 block, which is rational
    and its own inverse (other shapes are left as they are); the pixel
    maps and [log10] are simple stand-ins. *)

Module Sample.

Definition dct2 (m : matrix Q) (i j : nat) : Q :=
  match m with
  | [[a; b]; [c; d]] =>
      match i, j with
      | 0, 0 => ((a + b + c + d) / 2)%Q
      | 0, 1 => ((a - b + c - d) / 2)%Q
      | 1, 0 => ((a + b - c - d) / 2)%Q
      | _, _ => ((a - b - c + d) / 2)%Q
      end
  | _ => getQ m i j
  end.

Definition resize_nearest (src : matrix Q) (w h i j : nat) : Q :=
  getQ src (i * rows_of src / h) (j * cols_of src / w).

Definition luma (p : Z * Z * Z) : Z :=
  ((114 * p.1.1 + 587 * p.1.2 + 299 * p.2 + 500) / 1000)%Z.

Definition same (p : Z * Z * Z) : Z * Z * Z := p.

Definition log10 (x : spec_float) : spec_float := x.

Definition process_channel_dct := process_channel_dct dct2 dct2 resize_nearest.
Definition calculate_metrics := calculate_metrics same same luma log10.
Definition apply_dct := apply_dct dct2 dct2 resize_nearest same same luma log10.

(** A 2 x 2 plane and a 2 x 2 image. *)
Definition plane : matrix Z := [[52; 55]; [61; 59]]%Z.


Definition image : ndarray :=
  Arr3 [[[52; 55; 61]; [59; 79; 61]]; [[76; 61; 62]; [59; 55; 90]]]%Z.

(** The application with [image] loaded, at the given slider value. *)
Definition loaded (level : Z) (color_space quantization : string) : DCTCompressorApp :=
  MkApp (Some image) None None (Ieee.of_Z 1) (Ieee.of_Z 0) level 8
        color_space quantization [] "Ready" (Store [] []).

(** The application with the flat image of value 200 loaded. *)
Definition loaded_flat (level : Z) (color_space quantization : string) : DCTCompressorApp :=
  MkApp (Some (flat_image 200)) None None (Ieee.of_Z 1) (Ieee.of_Z 0) level 8
        color_space quantization [] "Ready" (Store [] []).

(** A second 2 x 2 plane, equal to [plane] in its first cell only. *)
Definition other_plane : matrix Z := [[52; 0]; [0; 0]]%Z.

(** An environment in which every drawing call returns and the one
    file [flat.png] can be read, and windows on it. *)
Definition draws (c : canvas) (img : ndarray) : bool := true.
Definition histogram (img : ndarray) : bool := true.
Definition imread (name : string) : option ndarray :=
  if String.eqb name "flat.png" then Some (flat_image 200) else None.
Definition getsize (name : string) : option Z := Some 2048%Z.
Definition basename (name : string) : string := name.

Definition no_prefs : Prefs := MkPrefs ∅ [].
Definition bad_prefs : Prefs := MkPrefs {[ "recent_files"%string := JInt 3 ]} [].

Definition window (st : DCTCompressorApp) (p : Prefs) : Window :=
  MkWindow st [] (MkToolbar false false false false false) p None (Ieee.of_Z 0).

Definition _update_after_dct := _update_after_dct draws histogram.
Definition undo_action := undo_action draws histogram.
Definition undo_times := undo_times (fun _ => draws) (fun _ => histogram).
Definition load_image := load_image draws histogram imread getsize basename.

(** A window after two runs, with one history entry for each. *)
Definition two_runs : Window :=
  MkWindow (metrics_state (flat_image 200) (flat_image 184) 50)
    [ MkEntry "2024-01-01 10:00:00" 90 8 "RGB" (Ieee.of_Z 0) (flat_image 200) (flat_image 199);
      MkEntry "2024-01-01 10:01:00" 50 8 "RGB" (Ieee.of_Z 0) (flat_image 200) (flat_image 184) ]
    (MkToolbar true true true true false) no_prefs (Some "flat.png"%string) (Ieee.of_Z 2).

End Sample.

(** ** Proof tactics *)



(** ** Running the store operations *)

Lemma snoc_lookup {A : Type} (h : list A) (a : A) : (h ++ [a]) !! length h = Some a.
Proof. by apply list_lookup_middle. Qed.

Lemma snoc_alter {A : Type} (f : A -> A) (h : list A) (a : A) :
  alter f (length h) (h ++ [a]) = h ++ [f a].
Proof.
  induction h as [|b h IH]; [done|].
  change (b :: alter f (length h) (h ++ [a]) = b :: (h ++ [f a])). by f_equal.
Qed.

Lemma load_new h w a : load (length h) (Store (h ++ [a]) w) = (a, Store (h ++ [a]) w).
Proof. unfold load; simpl. by rewrite snoc_lookup. Qed.

Lemma load_old l h w a :
  l < length h ->
  load l (Store (h ++ [a]) w) = (default [] (h !! l), Store (h ++ [a]) w).
Proof. intros Hl. unfold load; simpl. by rewrite lookup_app_l. Qed.

Lemma bind_run {A B : Type} (m : M A) (f : A -> M B) s a s' :
  m s = (a, s') -> (m ≫= f) s = f a s'.
Proof. intros H. unfold mbind, M_bind. by rewrite H. Qed.

Lemma alloc_run a h w : alloc a (Store h w) = (length h, Store (h ++ [a]) w).
Proof. done. Qed.

Lemma modify_new f h w a :
  modify (length h) f (Store (h ++ [a]) w) = (tt, Store (h ++ [f a]) w).
Proof. unfold modify; simpl. by rewrite snoc_alter. Qed.

Lemma load_prev h w a b :
  load (length h) (Store ((h ++ [a]) ++ [b]) w) = (a, Store ((h ++ [a]) ++ [b]) w).
Proof.
  unfold load; simpl. rewrite lookup_app_l, snoc_lookup; [done|].
  rewrite length_app; simpl; lia.
Qed.

Lemma store_slice_run p y x n v h t w :
  p < length h ->
  store_slice p y x n v (Store (h ++ t) w) =
  (tt, Store (<[p := assign_slice (default [] (h !! p)) y x n v]> h ++ t)
             (w ++ ((fun rc => (p, rc.1, rc.2)) <$> slice_cells (default [] (h !! p)) y x n))).
Proof.
  intros Hp. unfold store_slice; simpl.
  by rewrite lookup_app_l, insert_app_l.
Qed.

(** One iteration: seven arrays are allocated, [processed] is the only
    older array that is written. *)
Lemma process_block_run dct idct ch bs qm p y x h w :
  p < length h ->
  process_block dct idct ch bs qm p y x (Store h w) =
  (length h + 3,
   Store (<[p := assign_slice (default [] (h !! p)) y x bs
                   (block_clipped dct idct qm ch bs y x)]> h
          ++ block_arrays dct idct qm ch bs y x)
         (w ++ ((fun rc => (p, rc.1, rc.2)) <$> slice_cells (default [] (h !! p)) y x bs))).
Proof.
  intros Hp. unfold process_block.
  erewrite bind_run by (apply alloc_run). erewrite bind_run by (apply modify_new). erewrite bind_run by (apply load_new).
  erewrite bind_run by (apply alloc_run). erewrite bind_run by (apply load_new).
  erewrite bind_run by (apply alloc_run). erewrite bind_run by (apply load_new).
  erewrite bind_run by (apply alloc_run). erewrite bind_run by (apply load_prev).
  erewrite bind_run by (apply alloc_run). erewrite bind_run by (apply load_new).
  erewrite bind_run by (apply alloc_run). erewrite bind_run by (apply modify_new). erewrite bind_run by (apply load_new).
  erewrite bind_run by (apply alloc_run). erewrite bind_run by (apply load_new).
  rewrite <- !app_assoc.
  erewrite bind_run by (apply store_slice_run; exact Hp).
  unfold mret, M_ret. rewrite !length_app. simpl.
  f_equal; lia.
Qed.

Lemma foldM_app {A B : Type} (f : B -> A -> M B) b l1 l2 s :
  foldM f b (l1 ++ l2) s = foldM f (foldM f b l1 s).1 l2 (foldM f b l1 s).2.
Proof.
  revert b s. induction l1 as [|a l1 IH]; intros b s; simpl; [done|].
  unfold mbind, M_bind. destruct (f b a s) as [b' s']. apply IH.
Qed.

Lemma foldM_row {A1 A2 B : Type} (body : B -> A1 -> A2 -> M B) (y : A1) xs b s :
  foldM (fun b o => body b o.1 o.2) b ((fun x => (y, x)) <$> xs) s =
  foldM (fun b x => body b y x) b xs s.
Proof.
  revert b s. induction xs as [|x xs IH]; intros b s; simpl; [done|].
  unfold mbind, M_bind. destruct (body b y x s) as [b' s']. apply IH.
Qed.

(** The two nested loops visit the origins of [scan] in order. *)
Lemma foldM_nested {A1 A2 B : Type} (body : B -> A1 -> A2 -> M B) ys xs b s :
  foldM (fun b y => foldM (fun b x => body b y x) b xs) b ys s =
  foldM (fun b o => body b o.1 o.2) b (y ← ys; x ← xs; [(y, x)]) s.
Proof.
  revert b s. induction ys as [|y ys IH]; intros b s; [done|].
  change ((y :: ys) ≫= _) with
    ((xs ≫= fun x => [(y, x)]) ++ (ys ≫= fun y => xs ≫= fun x => [(y, x)])).
  rewrite foldM_app.
  replace (xs ≫= fun x => [(y, x)]) with ((fun x => (y, x)) <$> xs)
    by (clear; induction xs; simpl; [done | by f_equal]).
  rewrite foldM_row. simpl. unfold mbind at 1, M_bind at 1.
  destruct (foldM _ b xs s) as [b' s']. apply IH.
Qed.

(** ** Shapes *)

Lemma rows_assign_slice a y x n v : rows_of (assign_slice a y x n v) = rows_of a.
Proof. unfold rows_of, assign_slice. by rewrite length_imap. Qed.

Lemma cols_assign_slice a y x n v : cols_of (assign_slice a y x n v) = cols_of a.
Proof. destruct a as [|r a]; [done|]. simpl. by rewrite length_imap. Qed.

Lemma slice_cells_assign a y x n v y' x' n' :
  slice_cells (assign_slice a y x n v) y' x' n' = slice_cells a y' x' n'.
Proof. unfold slice_cells. by rewrite rows_assign_slice, cols_assign_slice. Qed.

Section Loop.

Variable dct_entry idct_entry : matrix Q -> nat -> nat -> Q.
Variable q_matrix : matrix Q.
Variable channel : matrix Z.
Variable block_size : nat.

Local Abbreviation clipped := (block_clipped dct_entry idct_entry q_matrix channel block_size).
Local Abbreviation arrays := (block_arrays dct_entry idct_entry q_matrix channel block_size).
Local Abbreviation after := (processed_after dct_entry idct_entry q_matrix channel block_size).

Lemma rows_processed_after p0 os : rows_of (after p0 os) = rows_of p0.
Proof.
  revert p0. induction os as [|o os IH]; intros p0; [done|].
  simpl. by rewrite IH, rows_assign_slice.
Qed.

Lemma cols_processed_after p0 os : cols_of (after p0 os) = cols_of p0.
Proof.
  revert p0. induction os as [|o os IH]; intros p0; [done|].
  simpl. by rewrite IH, cols_assign_slice.
Qed.

Lemma loop_body_run p cs o h w :
  p < length h ->
  loop_body dct_entry idct_entry q_matrix channel block_size p cs o (Store h w) =
  (cs ++ [length h + 3],
   Store (<[p := assign_slice (default [] (h !! p)) o.1 o.2 block_size (clipped o.1 o.2)]> h
          ++ arrays o.1 o.2)
         (w ++ ((fun rc => (p, rc.1, rc.2)) <$>
                slice_cells (default [] (h !! p)) o.1 o.2 block_size))).
Proof.
  intros Hp. unfold loop_body.
  by erewrite bind_run by (apply process_block_run; exact Hp).
Qed.

(** The store after the iterations at [os]: [processed] holds
    [processed_after], each iteration has added its seven arrays, the
    fourth of which is the archived one, and nothing else has changed. *)
Lemma loop_run p os : forall cs h w,
  p < length h ->
  foldM (loop_body dct_entry idct_entry q_matrix channel block_size p) cs os (Store h w) =
  (cs ++ ((fun k => length h + 7 * k + 3) <$> seq 0 (length os)),
   Store (<[p := after (default [] (h !! p)) os]> h ++ (os ≫= fun o => arrays o.1 o.2))
         (w ++ (os ≫= fun o =>
                  (fun rc => (p, rc.1, rc.2)) <$>
                  slice_cells (default [] (h !! p)) o.1 o.2 block_size))).
Proof.
  induction os as [|o os IH]; intros cs h w Hp.
  - simpl. unfold mret, M_ret. rewrite !app_nil_r.
    destruct (lookup_lt_is_Some_2 h p Hp) as [a Ha].
    rewrite Ha. simpl. by rewrite list_insert_id.
  - cbn [foldM].
    erewrite bind_run by (apply loop_body_run; exact Hp).
    set (P1 := assign_slice _ _ _ _ _).
    rewrite IH by (rewrite length_app, length_insert; lia).
    rewrite lookup_app_l by (rewrite length_insert; lia).
    rewrite list_lookup_insert_eq by done. simpl.
    rewrite insert_app_l by (rewrite length_insert; lia).
    rewrite list_insert_insert_eq.
    rewrite length_app, length_insert. simpl.
    f_equal.
    + rewrite <- app_assoc. f_equal. simpl. f_equal; [lia|].
      rewrite <- fmap_S_seq, <- list_fmap_compose.
      apply list_fmap_ext. intros _ k _. simpl. lia.
    + f_equal.
      * by rewrite <- app_assoc.
      * rewrite <- app_assoc. do 2 f_equal.
        apply list_bind_ext; [|done]. intros o'.
        subst P1. by rewrite slice_cells_assign.
Qed.

End Loop.

(** The whole of [process_channel_dct]: the plane it returns, the
    references it returns, and the store it leaves. [processed] is the
    array allocated first, at [length h]. *)
Lemma process_channel_dct_run dct idct rz ch bs lvl quant h w :
  let qm := scaled_q_matrix rz quant bs lvl in
  let os := scan (rows_of ch) (cols_of ch) bs in
  let zeros := mmap (fun _ => 0%Q) ch in
  let P := processed_after dct idct qm ch bs zeros os in
  process_channel_dct dct idct rz ch bs lvl quant (Store h w) =
  ((mmap astype_uint8 P, (fun k => length h + 7 * k + 4) <$> seq 0 (length os)),
   Store (h ++ P :: (os ≫= fun o => block_arrays dct idct qm ch bs o.1 o.2))
         (w ++ (os ≫= fun o =>
                  (fun rc => (length h, rc.1, rc.2)) <$> slice_cells zeros o.1 o.2 bs))).
Proof.
  intros qm os zeros P. unfold process_channel_dct.
  erewrite bind_run by (apply alloc_run).
  erewrite bind_run.
  2:{ rewrite (foldM_nested
                 (fun coeffs y x =>
                    c ← process_block dct idct ch bs qm (length h) y x;
                    mret (coeffs ++ [c]))).
      apply (loop_run dct idct qm ch bs (length h)).
      rewrite length_app; simpl; lia. }
  rewrite snoc_lookup. cbn [default from_option id].
  rewrite (insert_app_r_alt h [zeros]) by lia.
  rewrite Nat.sub_diag. cbn [insert list_insert].
  unfold load, mbind, M_bind, mret, M_ret. cbn [heap wlog].
  rewrite <- app_assoc. cbn [app].
  rewrite list_lookup_middle by done. cbn [default from_option id].
  f_equal. f_equal.
  rewrite length_app. simpl.
  apply list_fmap_ext. intros _ k _. lia.
Qed.

(** ** Cells of derived arrays *)

Lemma lookup2_mmap {A B : Type} (f : A -> B) (m : matrix A) i j :
  lookup2 (mmap f m) i j = f <$> lookup2 m i j.
Proof.
  unfold lookup2, mmap. rewrite list_lookup_fmap.
  destruct (m !! i) as [row|]; simpl; [|done]. by rewrite list_lookup_fmap.
Qed.



Lemma lookup2_slice2 {A : Type} (m : matrix A) y x n i j :
  lookup2 (slice2 m y x n) i j =
  if (i <? n) && (j <? n) then lookup2 m (y + i) (x + j) else None.
Proof.
  unfold lookup2, slice2. rewrite list_lookup_fmap.
  destruct (Nat.ltb_spec i n) as [Hi|Hi]; simpl.
  - rewrite lookup_take_lt, lookup_drop by done.
    destruct (m !! (y + i)) as [row|]; simpl; [|by destruct (j <? n)].
    destruct (Nat.ltb_spec j n) as [Hj|Hj].
    + by rewrite lookup_take_lt, lookup_drop.
    + by rewrite lookup_take_ge.
  - by rewrite lookup_take_ge.
Qed.


Lemma lookup2_tabulate {A : Type} (f : nat -> nat -> A) r c i j :
  lookup2 (tabulate r c f) i j = if (i <? r) && (j <? c) then Some (f i j) else None.
Proof.
  unfold lookup2, tabulate. rewrite list_lookup_fmap.
  destruct (Nat.ltb_spec i r) as [Hi|Hi]; simpl.
  - rewrite lookup_seq_lt by done. simpl. rewrite list_lookup_fmap.
    destruct (Nat.ltb_spec j c) as [Hj|Hj].
    + by rewrite lookup_seq_lt.
    + by rewrite lookup_seq_ge.
  - by rewrite lookup_seq_ge.
Qed.


Lemma lookup2_assign_slice a y x n v r c :
  lookup2 (assign_slice a y x n v) r c =
  (fun old => if covers n r c (y, x) then getQ v (r - y) (c - x) else old)
    <$> lookup2 a r c.
Proof.
  unfold lookup2, assign_slice. rewrite list_lookup_imap.
  destruct (a !! r) as [row|]; simpl; [|done]. by rewrite list_lookup_imap.
Qed.

(** A rectangular array has exactly the cells inside its shape. *)
Lemma rect_lookup2 {A : Type} (m : matrix A) h w i j :
  rect m h w -> i < h -> j < w -> is_Some (lookup2 m i j).
Proof.
  intros [Hh Hw] Hi Hj. unfold lookup2.
  destruct (lookup_lt_is_Some_2 m i) as [row Hrow]; [lia|].
  rewrite Hrow. simpl. apply lookup_lt_is_Some_2.
  rewrite Forall_lookup in Hw. by rewrite (Hw _ _ Hrow).
Qed.


Lemma rect_mmap {A B : Type} (f : A -> B) (m : matrix A) h w :
  rect m h w -> rect (mmap f m) h w.
Proof.
  intros [Hh Hw]. split; unfold mmap.
  - by rewrite length_fmap.
  - apply Forall_fmap. eapply Forall_impl; [exact Hw|].
    intros row Hrow. simpl. by rewrite length_fmap.
Qed.


Lemma rect_cols {A : Type} (m : matrix A) h w :
  rect m h w -> 0 < h -> cols_of m = w.
Proof.
  intros [Hh Hw] Hpos. destruct m as [|row m]; simpl in *; [lia|].
  by inversion Hw.
Qed.

Lemma rect_dims {A : Type} (m : matrix A) h w :
  rect m h w -> 0 < h -> rows_of m = h /\ cols_of m = w.
Proof. intros H Hh. split; [by destruct H | by eapply rect_cols]. Qed.



(** ** The scan covers every cell once *)

Lemma in_slice_spec start n i : in_slice start n i = true <-> start <= i < start + n.
Proof.
  unfold in_slice. rewrite andb_true_iff, Nat.leb_le, Nat.ltb_lt. lia.
Qed.

Lemma covers_spec n r c o :
  covers n r c o = true <-> (o.1 <= r < o.1 + n) /\ (o.2 <= c < o.2 + n).
Proof. unfold covers. by rewrite andb_true_iff, !in_slice_spec. Qed.

Lemma div_up_lt k stop step : 0 < step -> k < (stop + step - 1) / step <-> k * step < stop.
Proof.
  intros Hs. split; intros H.
  - destruct (Nat.lt_ge_cases (k * step) stop) as [|Hge]; [done|].
    assert ((stop + step - 1) / step < k + 1); [|lia].
    apply Nat.Div0.div_lt_upper_bound; nia.
  - assert (k + 1 <= (stop + step - 1) / step); [|lia].
    apply Nat.div_le_lower_bound; [lia|nia].
Qed.

Lemma elem_of_py_range stop step y :
  0 < step -> y ∈ py_range stop step <-> y < stop /\ exists k, y = k * step.
Proof.
  intros Hs. unfold py_range. rewrite list_elem_of_fmap. split.
  - intros (k & -> & Hk). apply elem_of_seq in Hk.
    split; [apply div_up_lt; lia | by exists k].
  - intros (Hy & k & ->). exists k. split; [done|].
    apply elem_of_seq. split; [lia|]. simpl. by apply div_up_lt.
Qed.

Lemma NoDup_py_range stop step : 0 < step -> NoDup (py_range stop step).
Proof.
  intros Hs. unfold py_range. apply NoDup_fmap_2; [|apply NoDup_seq].
  intros a b Hab. nia.
Qed.

Lemma elem_of_scan h w bs y x :
  (y, x) ∈ scan h w bs <-> y ∈ py_range h bs /\ x ∈ py_range w bs.
Proof.
  unfold scan. rewrite list_elem_of_bind. split.
  - intros (y' & Hin & Hy'). apply list_elem_of_bind in Hin as (x' & Hin & Hx').
    apply list_elem_of_singleton in Hin. by injection Hin as -> ->.
  - intros [Hy Hx]. exists y. split; [|done].
    apply list_elem_of_bind. exists x. split; [|done]. by apply list_elem_of_singleton.
Qed.

Lemma NoDup_scan h w bs : 0 < bs -> NoDup (scan h w bs).
Proof.
  intros Hs. unfold scan. apply NoDup_bind; [| |by apply NoDup_py_range].
  - intros y1 y2 [y x] _ _ H1 H2.
    apply list_elem_of_bind in H1 as (x1 & H1 & _), H2 as (x2 & H2 & _).
    apply list_elem_of_singleton in H1, H2. congruence.
  - intros y _. apply NoDup_bind; [| |by apply NoDup_py_range].
    + intros x1 x2 [y' x] _ _ H1 H2.
      apply list_elem_of_singleton in H1, H2. congruence.
    + intros x _. apply NoDup_singleton.
Qed.

Lemma origin_unique bs y i :
  0 < bs -> (exists k, y = k * bs) -> y <= i < y + bs -> y = origin_of bs i.
Proof.
  intros Hs [k ->] Hi. unfold origin_of. f_equal.
  apply (Nat.div_unique i bs k (i - k * bs)); lia.
Qed.

Lemma origin_covers bs i : 0 < bs -> origin_of bs i <= i < origin_of bs i + bs.
Proof.
  intros Hs. unfold origin_of.
  pose proof (Nat.div_mod_eq i bs). pose proof (Nat.mod_upper_bound i bs). lia.
Qed.

Lemma origin_in_scan h w bs r c :
  0 < bs -> r < h -> c < w -> (origin_of bs r, origin_of bs c) ∈ scan h w bs.
Proof.
  intros Hs Hr Hc. apply elem_of_scan.
  pose proof (origin_covers bs r Hs). pose proof (origin_covers bs c Hs).
  split; apply elem_of_py_range; try done; (split; [lia|]); eexists; reflexivity.
Qed.

(** A block of the scan that covers a cell is the block at the cell's
    origin. *)
Lemma scan_covers_unique h w bs r c o :
  0 < bs -> o ∈ scan h w bs -> covers bs r c o = true ->
  o = (origin_of bs r, origin_of bs c).
Proof.
  intros Hs Hin Hc. destruct o as [y x].
  apply elem_of_scan in Hin as [Hy Hx].
  apply elem_of_py_range in Hy as [_ Hy], Hx as [_ Hx]; try done.
  apply covers_spec in Hc as [Hr Hcc]. simpl in *.
  f_equal; by apply origin_unique.
Qed.





(** ** The reconstructed plane, cell by cell *)

Section Cells.

Variable dct_entry idct_entry : matrix Q -> nat -> nat -> Q.
Variable q_matrix : matrix Q.
Variable channel : matrix Z.
Variable bs : nat.

Local Abbreviation clipped := (block_clipped dct_entry idct_entry q_matrix channel bs).
Local Abbreviation arrays := (block_arrays dct_entry idct_entry q_matrix channel bs).
Local Abbreviation after := (processed_after dct_entry idct_entry q_matrix channel bs).

Lemma processed_after_app p0 os1 os2 :
  after p0 (os1 ++ os2) = after (after p0 os1) os2.
Proof. unfold processed_after. apply foldl_app. Qed.

(** Blocks that do not cover a cell leave it as it was. *)
Lemma lookup2_after_miss r c os : forall p0,
  (forall o, o ∈ os -> covers bs r c o = false) ->
  lookup2 (after p0 os) r c = lookup2 p0 r c.
Proof.
  induction os as [|o os IH]; intros p0 Hmiss; [done|].
  simpl. rewrite IH by (intros o' Ho'; apply Hmiss; by right).
  rewrite lookup2_assign_slice.
  replace (o.1, o.2) with o by (by destruct o).
  rewrite Hmiss by by left. by destruct (lookup2 p0 r c).
Qed.

(** The assignments never change which cells exist. *)
Lemma lookup2_after_exists r c os : forall p0,
  (fun _ => tt) <$> lookup2 (after p0 os) r c = (fun _ => tt) <$> lookup2 p0 r c.
Proof.
  induction os as [|o os IH]; intros p0; [done|].
  simpl. rewrite IH, lookup2_assign_slice. by destruct (lookup2 p0 r c).
Qed.

(** The last block that covers a cell decides it. *)
Lemma lookup2_after_hit r c os1 o os2 p0 :
  covers bs r c o = true ->
  (forall o', o' ∈ os2 -> covers bs r c o' = false) ->
  lookup2 (after p0 (os1 ++ o :: os2)) r c =
  (fun _ => getQ (clipped o.1 o.2) (r - o.1) (c - o.2)) <$> lookup2 p0 r c.
Proof.
  intros Hc Hmiss. rewrite processed_after_app. simpl.
  rewrite lookup2_after_miss by done.
  rewrite lookup2_assign_slice.
  replace (o.1, o.2) with o by (by destruct o). rewrite Hc.
  pose proof (lookup2_after_exists r c os1 p0) as He.
  destruct (lookup2 (after p0 os1) r c), (lookup2 p0 r c); by simpl in *.
Qed.

(** After the whole scan every cell holds the value its block computed. *)
Lemma lookup2_after_scan p0 h w r c :
  0 < bs -> rect p0 h w -> r < h -> c < w ->
  lookup2 (after p0 (scan h w bs)) r c =
  Some (getQ (clipped (origin_of bs r) (origin_of bs c))
             (r - origin_of bs r) (c - origin_of bs c)).
Proof.
  intros Hs Hrect Hr Hc.
  pose proof (origin_in_scan h w bs r c Hs Hr Hc) as Hin.
  apply list_elem_of_split in Hin as (os1 & os2 & Hsplit).
  pose proof (NoDup_scan h w bs Hs) as Hnd. rewrite Hsplit in Hnd.
  rewrite Hsplit, lookup2_after_hit.
  - destruct (rect_lookup2 p0 h w r c Hrect Hr Hc) as [v ->]. done.
  - apply covers_spec. simpl.
    pose proof (origin_covers bs r Hs). pose proof (origin_covers bs c Hs). lia.
  - intros o' Ho'. destruct (covers bs r c o') eqn:Hcov; [|done].
    assert (o' ∈ scan h w bs) as Hin'
      by (rewrite Hsplit; apply elem_of_app; right; by right).
    rewrite (scan_covers_unique h w bs r c o' Hs Hin' Hcov) in Ho'.
    apply NoDup_app in Hnd as (_ & _ & Hnd). apply NoDup_cons in Hnd as [Hnd _].
    done.
Qed.


End Cells.

(** ** Shapes of the blocks *)

Lemma rect_slice2 {A : Type} (m : matrix A) h w y x n :
  rect m h w -> rect (slice2 m y x n) (Nat.min n (h - y)) (Nat.min n (w - x)).
Proof.
  intros [Hh Hw]. split; unfold slice2.
  - by rewrite length_fmap, length_take, length_drop, Hh.
  - apply Forall_fmap, Forall_take, Forall_drop.
    eapply Forall_impl; [exact Hw|]. intros row Hrow. simpl.
    by rewrite length_take, length_drop, Hrow.
Qed.

Lemma rect_imap2 {A B : Type} (f : nat -> nat -> B) (m : matrix A) h w :
  rect m h w ->
  rect (imap (fun i (row : list A) => imap (fun j (_ : A) => f i j) row) m) h w.
Proof.
  intros [Hh Hw]. split.
  - by rewrite length_imap.
  - apply Forall_lookup. intros i row Hrow.
    rewrite list_lookup_imap in Hrow.
    destruct (m !! i) as [row'|] eqn:Hm; simpl in Hrow; [|done].
    injection Hrow as <-. rewrite length_imap.
    rewrite Forall_lookup in Hw. by apply (Hw _ _ Hm).
Qed.

Lemma rect_mzip {A B C : Type} (f : A -> B -> C) (a : matrix A) (b : matrix B) h w :
  rect a h w -> rect b h w -> rect (mzip f a b) h w.
Proof.
  intros [Ha Haw] [Hb Hbw]. split; unfold mzip.
  - rewrite length_zip_with. lia.
  - apply Forall_lookup. intros i row Hrow.
    apply lookup_zip_with_Some in Hrow as (ra & rb & -> & Hra & Hrb).
    rewrite length_zip_with.
    rewrite Forall_lookup in Haw. rewrite Forall_lookup in Hbw.
    rewrite (Haw _ _ Hra), (Hbw _ _ Hrb). lia.
Qed.

Lemma rect_top_left {A : Type} (m : matrix A) h w r c :
  rect m h w -> r <= h -> c <= w -> rect (top_left m r c) r c.
Proof.
  intros [Hh Hw] Hr Hc. split; unfold top_left.
  - rewrite length_fmap, length_take. lia.
  - apply Forall_fmap, Forall_take.
    eapply Forall_impl; [exact Hw|]. intros row Hrow. simpl in *.
    rewrite length_take. lia.
Qed.





Section Blocks.

Variable dct_entry idct_entry : matrix Q -> nat -> nat -> Q.
Variable q_matrix : matrix Q.
Variable channel : matrix Z.
Variable bs h w : nat.
Hypothesis Hchannel : rect channel h w.
Hypothesis Hq : rect q_matrix bs bs.

Lemma rect_block_shifted y x : rect (block_shifted channel bs y x) (Nat.min bs (h - y)) (Nat.min bs (w - x)).
Proof. unfold block_shifted. by apply rect_mmap, rect_mmap, rect_slice2. Qed.

Lemma block_q_sub_top_left y x :
  y < h -> 0 < bs ->
  block_q_sub q_matrix channel bs y x = top_left q_matrix (Nat.min bs (h - y)) (Nat.min bs (w - x)).
Proof.
  intros Hy Hs. unfold block_q_sub.
  pose proof (rect_block_shifted y x) as Hb.
  rewrite (rect_cols _ _ _ Hb) by lia.
  destruct Hb as [Hb _]. unfold rows_of. by rewrite Hb.
Qed.

Lemma rect_block_q_sub y x :
  y < h -> 0 < bs -> rect (block_q_sub q_matrix channel bs y x) (Nat.min bs (h - y)) (Nat.min bs (w - x)).
Proof.
  intros Hy Hs. rewrite block_q_sub_top_left by done.
  apply (rect_top_left _ bs bs); [done|lia|lia].
Qed.

Lemma rect_block_dct y x : rect (block_dct dct_entry channel bs y x) (Nat.min bs (h - y)) (Nat.min bs (w - x)).
Proof. unfold block_dct, cv_dct. apply rect_imap2, rect_block_shifted. Qed.

Lemma rect_block_quantized y x :
  y < h -> 0 < bs ->
  rect (block_quantized dct_entry q_matrix channel bs y x) (Nat.min bs (h - y)) (Nat.min bs (w - x)).
Proof.
  intros Hy Hs. unfold block_quantized.
  apply rect_mmap, rect_mzip; [apply rect_block_dct | by apply rect_block_q_sub].
Qed.

Lemma rect_block_dequantized y x :
  y < h -> 0 < bs ->
  rect (block_dequantized dct_entry q_matrix channel bs y x) (Nat.min bs (h - y)) (Nat.min bs (w - x)).
Proof.
  intros Hy Hs. unfold block_dequantized.
  apply rect_mzip; [by apply rect_block_quantized | by apply rect_block_q_sub].
Qed.

Lemma rect_block_clipped y x :
  y < h -> 0 < bs ->
  rect (block_clipped dct_entry idct_entry q_matrix channel bs y x) (Nat.min bs (h - y)) (Nat.min bs (w - x)).
Proof.
  intros Hy Hs. unfold block_clipped, block_restored, cv_idct.
  by apply rect_mmap, rect_mmap, rect_imap2, rect_block_dequantized.
Qed.





End Blocks.

(** ** Rounding and conversion *)





Lemma np_clip_range lo hi v : (lo <= hi)%Q -> (lo <= np_clip lo hi v <= hi)%Q.
Proof.
  intros Hle. unfold np_clip. split.
  - apply Q.min_glb; [apply Q.le_max_r | done].
  - apply Q.le_min_r.
Qed.


(** ** Images through the colour conversions *)






Lemma pixel_lengths (m : matrix (list Z)) h w :
  rect m h w -> Forall (Forall (fun px : list Z => length px = 3)) m ->
  (fun row : list (list Z) => length <$> row) <$> m = replicate h (replicate w 3).
Proof.
  intros [<- Hw] Hpx. induction Hw as [|row m Hrow Hw IH]; [done|].
  apply Forall_cons in Hpx as [Hpx1 Hpx].
  rewrite fmap_cons. cbn [length replicate]. rewrite IH by done. f_equal.
  rewrite <- Hrow. clear Hrow. induction Hpx1 as [|px row Hp Hpx1 IH']; [done|].
  rewrite fmap_cons. cbn [length replicate]. by rewrite Hp, IH'.
Qed.

Lemma shape_eqb_images a b h w :
  bgr_image a h w -> bgr_image b h w -> shape_eqb a b = true.
Proof.
  destruct a as [|ma], b as [|mb]; try done. intros [Ha Hpa] [Hb Hpb].
  unfold shape_eqb. rewrite (pixel_lengths ma h w), (pixel_lengths mb h w) by done.
  by apply bool_decide_eq_true.
Qed.


Section Conversions.

Variable bgr2ycrcb ycrcb2bgr : Z * Z * Z -> Z * Z * Z.
Variable bgr2gray : Z * Z * Z -> Z.

Local Abbreviation cvt := (cvtColor bgr2ycrcb ycrcb2bgr bgr2gray).




End Conversions.



(** ** A whole run *)

Section Run.

Variable dct_entry idct_entry : matrix Q -> nat -> nat -> Q.
Variable resize_linear : matrix Q -> nat -> nat -> nat -> nat -> Q.
Variable bgr2ycrcb ycrcb2bgr : Z * Z * Z -> Z * Z * Z.
Variable bgr2gray : Z * Z * Z -> Z.
Variable log10 : spec_float -> spec_float.

Local Abbreviation step := (channel_step dct_entry idct_entry resize_linear).
Local Abbreviation cvt := (cvtColor bgr2ycrcb ycrcb2bgr bgr2gray).
Local Abbreviation metrics := (calculate_metrics bgr2ycrcb ycrcb2bgr bgr2gray log10).
Local Abbreviation thread :=
  (_apply_dct_thread dct_entry idct_entry resize_linear bgr2ycrcb ycrcb2bgr bgr2gray log10).




End Run.

(** ** The codec: archive, coverage and range *)

Section CodecTheorems.

Variable dct_entry idct_entry : matrix Q -> nat -> nat -> Q.
Variable resize_linear : matrix Q -> nat -> nat -> nat -> nat -> Q.

Local Abbreviation run := (process_channel_dct dct_entry idct_entry resize_linear).







End CodecTheorems.

(** ** The quantization tables *)

Lemma all_at_least_one_spec m :
  all_at_least_one m = true -> Forall (Forall (fun q => 1 <= q)%Q) m.
Proof.
  unfold all_at_least_one. intros H.
  apply Forall_forall. intros row Hrow. apply Forall_forall. intros q Hq.
  apply list_elem_of_In in Hrow, Hq.
  rewrite forallb_forall in H. specialize (H row Hrow).
  rewrite forallb_forall in H. by apply Qle_bool_iff, H.
Qed.

Lemma custom_table_4 : all_at_least_one (create_custom_quantization_matrix 4) = true.
Proof. vm_compute. reflexivity. Qed.

Lemma custom_table_8 : all_at_least_one (create_custom_quantization_matrix 8) = true.
Proof. vm_compute. reflexivity. Qed.

Lemma custom_table_16 : all_at_least_one (create_custom_quantization_matrix 16) = true.
Proof. vm_compute. reflexivity. Qed.

Lemma custom_table_32 : all_at_least_one (create_custom_quantization_matrix 32) = true.
Proof. vm_compute. reflexivity. Qed.

(** C4. Whatever the quantization policy (["Standard JPEG"], ["Uniform"],
    any other string selects the custom radial table) and for each block
    size 4, 8, 16 and 32, every entry of the table the builder returns is
    at least 1. *)
Theorem quantization_entries_at_least_one
    (resize_linear : matrix Q -> nat -> nat -> nat -> nat -> Q)
    (quantization : string) (size : nat) :
  size ∈ [4; 8; 16; 32] ->
  Forall (Forall (fun q => 1 <= q)%Q) (select_q_matrix resize_linear quantization size).
Proof.
  intros Hsize. unfold select_q_matrix.
  destruct (String.eqb quantization "Standard JPEG").
  - unfold create_jpeg_quantization_matrix.
    destruct (size =? 8).
    + by apply all_at_least_one_spec.
    + unfold mmap. apply Forall_fmap, Forall_forall. intros row _. simpl.
      apply Forall_fmap, Forall_forall. intros q _. simpl.
      by apply np_clip_range.
  - destruct (String.eqb quantization "Uniform").
    + apply Forall_replicate, Forall_replicate. apply Qle_refl.
    + apply all_at_least_one_spec.
      repeat (apply elem_of_cons in Hsize as [->|Hsize]);
        [apply custom_table_4 | apply custom_table_8 | apply custom_table_16
        | apply custom_table_32 | by apply elem_of_nil in Hsize].
Qed.

(** ** Metrics *)

(** What the [uint8] arithmetic of [calculate_metrics] keeps of one
    squared difference: its residue modulo 256. *)
Lemma uint8_squared_difference a b :
  uint8_sq (uint8_sub a b) = (((a - b) * (a - b)) mod 256)%Z.
Proof. unfold uint8_sq, uint8_sub. symmetry. apply Zmult_mod. Qed.

Lemma uint8_squared_difference_small a b :
  (-15 <= a - b <= 15)%Z -> uint8_sq (uint8_sub a b) = ((a - b) * (a - b))%Z.
Proof.
  intros H. rewrite uint8_squared_difference. apply Z.mod_small.
  remember (a - b)%Z as d.
  assert (0 <= (15 - d) * (15 + d))%Z by (apply Z.mul_nonneg_nonneg; lia).
  assert (0 <= d * d)%Z by apply Z.square_nonneg. lia.
Qed.

(** C1. [calculate_metrics] on an original whose samples are all 200 and
    a reconstruction whose samples are all 184: every difference is 16,
    its square 256 wraps to 0 in [uint8], the computed mean is 0 and the
    PSNR is +infinity, while the mean of the squared differences is 256. *)
Theorem psnr_infinite_for_different_images
    (bgr2ycrcb ycrcb2bgr : Z * Z * Z -> Z * Z * Z) (bgr2gray : Z * Z * Z -> Z)
    (log10 : spec_float -> spec_float) :
  let st := metrics_state (flat_image 200) (flat_image 184) 50 in
  np_mse (flat_image 200) (flat_image 184) = Some (S754_zero false) /\
  (exists st', calculate_metrics bgr2ycrcb ycrcb2bgr bgr2gray log10 st = Returned st' /\
               psnr_value st' = S754_infinity false) /\
  (mean_squared_error (flatten (flat_image 200)) (flatten (flat_image 184)) == 256)%Q.
Proof.
  split; [|split]; [by vm_compute | | by vm_compute].
  eexists. split; [by vm_compute | done].
Qed.

(** The same two images arise in a run: with the exact 2 x 2 transform
    of [Sample], the flat image of value 200 at slider value 40 with the
    standard table is reconstructed as the flat image of value 184, and
    the run reports a PSNR of +infinity. *)
Lemma flat_image_run_reports_infinite_psnr :
  processed_image (Sample.apply_dct (Sample.loaded_flat 40 "RGB" "Standard JPEG"))
    = Some (flat_image 184) /\
  psnr_value (Sample.apply_dct (Sample.loaded_flat 40 "RGB" "Standard JPEG"))
    = S754_infinity false.
Proof. split; vm_compute; reflexivity. Qed.

(** ** The compression ratio *)

(** All hundred slider values, by evaluation in binary64: each ratio
    is close to the exact quotient and less than the next one. *)
Lemma ratio_table :
  forallb ratio_entry_ok (seqZ 1 100) && forallb ratio_step_ok (seqZ 1 99) = true.
Proof. vm_compute. reflexivity. Qed.

Lemma ratio_in_range a :
  (1 <= a <= 100)%Z -> exists r, ratio_of_level a = Some r /\ ratio_close a r.
Proof.
  intros Ha. pose proof ratio_table as H. apply andb_true_iff in H as [H _].
  rewrite forallb_forall in H.
  specialize (H a ltac:(apply list_elem_of_In, elem_of_seqZ; lia)).
  unfold ratio_entry_ok in H.
  destruct (ratio_of_level a) as [r|]; [|done].
  apply andb_true_iff in H as [Hf Hc]. exists r. split; [done|].
  split; [done | by apply Qle_bool_iff].
Qed.

Lemma ratio_step a :
  (1 <= a < 100)%Z ->
  exists ra rb, ratio_of_level a = Some ra /\ ratio_of_level (a + 1) = Some rb /\
    pos_finite ra = true /\ pos_finite rb = true /\ SFltb ra rb = true.
Proof.
  intros Ha. pose proof ratio_table as H. apply andb_true_iff in H as [_ H].
  rewrite forallb_forall in H.
  specialize (H a ltac:(apply list_elem_of_In, elem_of_seqZ; lia)).
  unfold ratio_step_ok in H.
  destruct (ratio_of_level a) as [ra|]; [|done].
  destruct (ratio_of_level (a + 1)) as [rb|]; [|done].
  apply andb_true_iff in H as [H Hlt]. apply andb_true_iff in H as [Hpa Hpb].
  by exists ra, rb.
Qed.

(** The comparison of floats is transitive on the positive finite ones. *)
Lemma SFltb_pos_trans x y z :
  pos_finite x = true -> pos_finite y = true -> pos_finite z = true ->
  SFltb x y = true -> SFltb y z = true -> SFltb x z = true.
Proof.
  destruct x as [| | |[] mx ex], y as [| | |[] my ey], z as [| | |[] mz ez]; try done.
  intros _ _ _. unfold SFltb, SFcompare.
  change (Pos.compare_cont Eq mx my) with (Pos.compare mx my).
  change (Pos.compare_cont Eq my mz) with (Pos.compare my mz).
  change (Pos.compare_cont Eq mx mz) with (Pos.compare mx mz).
  destruct (Z.compare_spec ex ey), (Z.compare_spec ey ez), (Z.compare_spec ex ez);
    try done; try lia.
  destruct (Pos.compare_spec mx my), (Pos.compare_spec my mz), (Pos.compare_spec mx mz);
    try done; lia.
Qed.

Lemma ratio_chain n : forall a,
  (1 <= a)%Z -> (a + 1 + Z.of_nat n <= 100)%Z ->
  exists ra rb, ratio_of_level a = Some ra /\
    ratio_of_level (a + 1 + Z.of_nat n) = Some rb /\
    pos_finite ra = true /\ pos_finite rb = true /\ SFltb ra rb = true.
Proof.
  induction n as [|n IH]; intros a Hlo Hhi.
  - replace (a + 1 + Z.of_nat 0)%Z with (a + 1)%Z by lia. apply ratio_step. lia.
  - destruct (IH a Hlo ltac:(lia)) as (ra & rm & Ha & Hm & Hpa & Hpm & Hlt).
    destruct (ratio_step (a + 1 + Z.of_nat n)) as (rm' & rb & Hm' & Hb & _ & Hpb & Hlt');
      [lia|].
    rewrite Hm in Hm'. injection Hm' as <-.
    exists ra, rb. split; [done|].
    split; [by replace (a + 1 + Z.of_nat (S n))%Z with (a + 1 + Z.of_nat n + 1)%Z by lia|].
    split; [done|]. split; [done|]. by apply (SFltb_pos_trans ra rm rb).
Qed.

Lemma ratio_increasing a b ra rb :
  (1 <= a)%Z -> (a < b)%Z -> (b <= 100)%Z ->
  ratio_of_level a = Some ra -> ratio_of_level b = Some rb -> SFltb ra rb = true.
Proof.
  intros H1 Hab H100 Ha Hb.
  destruct (ratio_chain (Z.to_nat (b - a - 1)) a H1 ltac:(lia))
    as (ra' & rb' & Ha' & Hb' & _ & _ & Hlt).
  replace (a + 1 + Z.of_nat (Z.to_nat (b - a - 1)))%Z with b in Hb' by lia.
  rewrite Ha in Ha'. rewrite Hb in Hb'. injection Ha' as <-. injection Hb' as <-.
  done.
Qed.

Section RunTheorems.

Variable dct_entry idct_entry : matrix Q -> nat -> nat -> Q.
Variable resize_linear : matrix Q -> nat -> nat -> nat -> nat -> Q.
Variable bgr2ycrcb ycrcb2bgr : Z * Z * Z -> Z * Z * Z.
Variable bgr2gray : Z * Z * Z -> Z.
Variable log10 : spec_float -> spec_float.

Local Abbreviation metrics := (calculate_metrics bgr2ycrcb ycrcb2bgr bgr2gray log10).
Local Abbreviation run :=
  (apply_dct dct_entry idct_entry resize_linear bgr2ycrcb ycrcb2bgr bgr2gray log10).

Lemma metrics_returned st st' :
  metrics st = Returned st' ->
  ratio_of_level (compression_level st) = Some (compression_ratio st').
Proof.
  unfold calculate_metrics. destruct (metrics_mse _ _ _ st) as [mse|]; [|done].
  cbn [compression_level set_psnr].
  destruct (ratio_of_level (compression_level st)) as [r|]; [|done].
  by intros [= <-].
Qed.

(** C8. When [calculate_metrics] returns at slider values
    [1 <= a < b <= 100], each computed ratio is the binary64 value of
    [1 / (1 + (100 - level)/100)], within 2^-53 of the exact quotient, and
    the ratio at [a] is less than the ratio at [b]. *)
Theorem compression_ratio_increasing st1 st2 st1' st2' :
  metrics st1 = Returned st1' -> metrics st2 = Returned st2' ->
  (1 <= compression_level st1)%Z ->
  (compression_level st1 < compression_level st2)%Z ->
  (compression_level st2 <= 100)%Z ->
  ratio_of_level (compression_level st1) = Some (compression_ratio st1') /\
  ratio_of_level (compression_level st2) = Some (compression_ratio st2') /\
  ratio_close (compression_level st1) (compression_ratio st1') /\
  ratio_close (compression_level st2) (compression_ratio st2') /\
  SFltb (compression_ratio st1') (compression_ratio st2') = true.
Proof.
  intros H1 H2 Hlo Hlt Hhi.
  apply metrics_returned in H1, H2.
  destruct (ratio_in_range (compression_level st1)) as (r1 & Hr1 & Hc1); [lia|].
  destruct (ratio_in_range (compression_level st2)) as (r2 & Hr2 & Hc2); [lia|].
  rewrite H1 in Hr1. rewrite H2 in Hr2. injection Hr1 as <-. injection Hr2 as <-.
  repeat split; try done; try apply Hc1; try apply Hc2.
  by eapply ratio_increasing.
Qed.




End RunTheorems.

(** ** The claims as stated, where the code departs from them *)



(** ** The theorems at concrete inputs *)

Lemma rect_example_plane : rect Sample.plane 2 2.
Proof. split; [reflexivity | repeat constructor]. Qed.


Lemma quantization_entries_at_least_one_witness :
  16 ∈ [4; 8; 16; 32] /\
  Forall (Forall (fun q => 1 <= q)%Q)
    (select_q_matrix Sample.resize_nearest "Standard JPEG" 16).
Proof.
  assert (16 ∈ [4; 8; 16; 32]) as H by (do 2 apply list_elem_of_further; apply list_elem_of_here).
  split; [exact H|].
  exact (quantization_entries_at_least_one Sample.resize_nearest "Standard JPEG" 16 H).
Defined.




Lemma compression_ratio_increasing_witness :
  exists st1 st2,
    Sample.calculate_metrics
      (metrics_state (flat_image 200) (flat_image 184) 10) = Returned st1 /\
    Sample.calculate_metrics
      (metrics_state (flat_image 200) (flat_image 184) 90) = Returned st2 /\
    SFltb (compression_ratio st1) (compression_ratio st2) = true.
Proof.
  eexists _, _. split; [vm_compute; reflexivity|]. split; [vm_compute; reflexivity|].
  eapply (compression_ratio_increasing Sample.same Sample.same Sample.luma Sample.log10
            (metrics_state (flat_image 200) (flat_image 184) 10)
            (metrics_state (flat_image 200) (flat_image 184) 90));
    [vm_compute; reflexivity | vm_compute; reflexivity | simpl; lia..].
Defined.




(** * More of the program

    Properties of the codec, of the tables and of the metrics beyond the
    specification, and the methods around them: the recent files, the
    history with its undo, and the loading of a file. *)

(** ** The layout of the scan *)






(** Two arrays of one shape with the same cells are the same array. *)
Lemma matrix_ext {A : Type} (m1 m2 : matrix A) h w :
  rect m1 h w -> rect m2 h w ->
  (forall i j, i < h -> j < w -> lookup2 m1 i j = lookup2 m2 i j) ->
  m1 = m2.
Proof.
  intros [Hh1 Hw1] [Hh2 Hw2] Hcells.
  apply list_eq. intros i.
  destruct (Nat.lt_ge_cases i h) as [Hi|Hi].
  - destruct (lookup_lt_is_Some_2 m1 i) as [r1 Hr1]; [lia|].
    destruct (lookup_lt_is_Some_2 m2 i) as [r2 Hr2]; [lia|].
    rewrite Hr1, Hr2. f_equal.
    rewrite Forall_lookup in Hw1. rewrite Forall_lookup in Hw2.
    pose proof (Hw1 _ _ Hr1) as Hl1. pose proof (Hw2 _ _ Hr2) as Hl2.
    apply list_eq. intros j.
    destruct (Nat.lt_ge_cases j w) as [Hj|Hj].
    + specialize (Hcells i j Hi Hj). unfold lookup2 in Hcells.
      by rewrite Hr1, Hr2 in Hcells.
    + by rewrite !lookup_ge_None_2 by lia.
  - by rewrite !lookup_ge_None_2 by lia.
Qed.



Section CodecLayout.

Variable dct_entry idct_entry : matrix Q -> nat -> nat -> Q.
Variable resize_linear : matrix Q -> nat -> nat -> nat -> nat -> Q.

Local Abbreviation run := (process_channel_dct dct_entry idct_entry resize_linear).



(** The value of a cell of the reconstructed plane. *)
Lemma processed_cell ch bs lvl quant hp wl h w r c :
  rect ch h w -> 0 < bs -> r < h -> c < w ->
  let q_matrix := scaled_q_matrix resize_linear quant bs lvl in
  lookup2 (run ch bs lvl quant (Store hp wl)).1.1 r c =
  Some (astype_uint8
          (getQ (block_clipped dct_entry idct_entry q_matrix ch bs
                   (origin_of bs r) (origin_of bs c))
                (r - origin_of bs r) (c - origin_of bs c))).
Proof.
  intros Hch Hs Hr Hc q_matrix.
  rewrite process_channel_dct_run. cbn [fst].
  destruct (rect_dims ch h w Hch) as [Hrows Hcols]; [lia|].
  rewrite lookup2_mmap, Hrows, Hcols.
  rewrite (lookup2_after_scan _ _ _ _ _ _ h w); [done|done| |done|done].
  by apply rect_mmap.
Qed.

(** A sample of the reconstruction depends on the samples of its own
    block only: two planes that agree on the block of [(r, c)] are
    reconstructed to the same sample there, whatever the rest of the
    planes and whatever the store. *)
Theorem blocks_are_independent ch1 ch2 bs lvl quant s1 s2 h w r c :
  rect ch1 h w -> rect ch2 h w -> 0 < bs -> r < h -> c < w ->
  (forall r' c', r' < h -> c' < w ->
     origin_of bs r' = origin_of bs r -> origin_of bs c' = origin_of bs c ->
     getZ ch1 r' c' = getZ ch2 r' c') ->
  getZ (run ch1 bs lvl quant s1).1.1 r c = getZ (run ch2 bs lvl quant s2).1.1 r c.
Proof.
  intros H1 H2 Hs Hr Hc Hagree.
  destruct s1 as [h1 w1], s2 as [h2 w2]. unfold getZ.
  rewrite (processed_cell ch1 bs lvl quant h1 w1 h w) by done.
  rewrite (processed_cell ch2 bs lvl quant h2 w2 h w) by done.
  cbn [default from_option id]. do 2 f_equal.
  set (y := origin_of bs r). set (x := origin_of bs c).
  pose proof (origin_covers bs r Hs) as Hy. pose proof (origin_covers bs c Hs) as Hx.
  fold y in Hy. fold x in Hx.
  assert (slice2 ch1 y x bs = slice2 ch2 y x bs) as Hslice.
  { apply (matrix_ext _ _ (Nat.min bs (h - y)) (Nat.min bs (w - x)));
      [by apply rect_slice2 | by apply rect_slice2 |].
    intros i j Hi Hj. rewrite !lookup2_slice2.
    destruct (Nat.ltb_spec i bs); [|lia]. destruct (Nat.ltb_spec j bs); [|lia]. simpl.
    assert (getZ ch1 (y + i) (x + j) = getZ ch2 (y + i) (x + j)) as Hg.
    { apply Hagree; [lia|lia| |].
      - symmetry. apply origin_unique; [done| |lia].
        exists (r / bs). done.
      - symmetry. apply origin_unique; [done| |lia].
        exists (c / bs). done. }
    unfold getZ in Hg.
    destruct (rect_lookup2 ch1 h w (y + i) (x + j) H1) as [v1 Hv1]; [lia|lia|].
    destruct (rect_lookup2 ch2 h w (y + i) (x + j) H2) as [v2 Hv2]; [lia|lia|].
    rewrite Hv1, Hv2 in *. simpl in Hg. by rewrite Hg. }
  unfold block_clipped, block_restored, block_dequantized, block_quantized,
    block_q_sub, block_dct, block_shifted.
  by rewrite Hslice.
Qed.


End CodecLayout.

(** ** The tables *)

Lemma custom_tables_ok : forallb custom_table_ok [4; 8; 16; 32] = true.
Proof. vm_compute. reflexivity. Qed.

Lemma custom_entry_sym size i j : custom_entry size i j = custom_entry size j i.
Proof. unfold custom_entry. by rewrite (Nat.add_comm (i ^ 2)). Qed.

(** The custom table, for the block sizes of the combo box: the entry
    of the DC coefficient is exactly 1, the table is symmetric, every
    entry lies in [1, 51), and the entries do not decrease along a row
    or along a column. *)
Theorem custom_table_grows_from_one size i j :
  size ∈ [4; 8; 16; 32] -> i < size -> j < size ->
  let m := create_custom_quantization_matrix size in
  (getQ m 0 0 == 1)%Q /\
  getQ m i j = getQ m j i /\
  (1 <= getQ m i j)%Q /\ (getQ m i j < 51)%Q /\
  (S i < size -> (getQ m i j <= getQ m (S i) j)%Q) /\
  (S j < size -> (getQ m i j <= getQ m i (S j))%Q).
Proof.
  intros Hsize Hi Hj m.
  assert (custom_table_ok size = true) as Hok.
  { pose proof custom_tables_ok as H. rewrite forallb_forall in H.
    apply H, list_elem_of_In, Hsize. }
  unfold custom_table_ok in Hok. fold m in Hok.
  apply andb_true_iff in Hok as [Hdc Hcells].
  rewrite forallb_forall in Hcells.
  specialize (Hcells i ltac:(apply list_elem_of_In, elem_of_seq; lia)).
  rewrite forallb_forall in Hcells.
  specialize (Hcells j ltac:(apply list_elem_of_In, elem_of_seq; lia)).
  unfold custom_cell_ok in Hcells.
  apply andb_true_iff in Hcells as [Hcells Hcol].
  apply andb_true_iff in Hcells as [Hcells Hrow].
  apply andb_true_iff in Hcells as [Hlo Hhi].
  split; [by apply Qeq_bool_iff|].
  split.
  { unfold m, getQ, create_custom_quantization_matrix. rewrite !lookup2_tabulate.
    destruct (Nat.ltb_spec i size); [|lia]. destruct (Nat.ltb_spec j size); [|lia].
    simpl. by rewrite custom_entry_sym. }
  split; [by apply Qle_bool_iff|].
  split.
  { apply Qnot_le_lt. intros H. apply Qle_bool_iff in H. by rewrite H in Hhi. }
  split.
  - intros Hlt. apply orb_true_iff in Hrow as [Hrow|Hrow].
    + apply Nat.leb_le in Hrow. lia.
    + by apply Qle_bool_iff.
  - intros Hlt. apply orb_true_iff in Hcol as [Hcol|Hcol].
    + apply Nat.leb_le in Hcol. lia.
    + by apply Qle_bool_iff.
Qed.


(** ** What a run computes *)

Section RunResult.

Variable dct_entry idct_entry : matrix Q -> nat -> nat -> Q.
Variable resize_linear : matrix Q -> nat -> nat -> nat -> nat -> Q.
Variable bgr2ycrcb ycrcb2bgr : Z * Z * Z -> Z * Z * Z.
Variable bgr2gray : Z * Z * Z -> Z.
Variable log10 : spec_float -> spec_float.

Local Abbreviation step := (channel_step dct_entry idct_entry resize_linear).
Local Abbreviation metrics := (calculate_metrics bgr2ycrcb ycrcb2bgr bgr2gray log10).
Local Abbreviation run :=
  (apply_dct dct_entry idct_entry resize_linear bgr2ycrcb ycrcb2bgr bgr2gray log10).
Local Abbreviation plane := (plane_of dct_entry idct_entry resize_linear).
Local Abbreviation ending := (finish bgr2ycrcb ycrcb2bgr bgr2gray log10).
Local Abbreviation rebuilt :=
  (reconstruction dct_entry idct_entry resize_linear bgr2ycrcb ycrcb2bgr bgr2gray).

(** The plane [process_channel_dct] returns does not depend on the
    store it runs in. *)
Lemma process_channel_dct_plane ch bs lvl quant s :
  (process_channel_dct dct_entry idct_entry resize_linear ch bs lvl quant s).1.1 =
  plane bs lvl quant ch.
Proof.
  destruct s as [h w]. unfold plane_of. by rewrite !process_channel_dct_run.
Qed.

(** The loop over the channels, with the planes it collects. *)
Lemma channels_loop_planes n bs lvl quant chs : forall i0 pcs dcs st,
  exists coeffs s,
    foldl (step n bs lvl quant) (pcs, dcs, st) (zip (seq i0 (length chs)) chs) =
    (pcs ++ (plane bs lvl quant <$> chs), dcs ++ coeffs,
     MkApp (original_image st) (processed_image st) (dct_coefficients st)
       (compression_ratio st) (psnr_value st) (compression_level st)
       (block_size st) (color_space st) (quantization st)
       (progress_var st ++ (channel_progress n <$> seq i0 (length chs)))
       (status_message st) s) /\
    length coeffs = length chs.
Proof.
  induction chs as [|ch chs IH]; intros i0 pcs dcs st.
  - exists [], (arrays st). simpl. rewrite !app_nil_r. by destruct st.
  - cbn [length seq zip zip_with foldl].
    unfold channel_step at 2. cbn [fst snd].
    pose proof (process_channel_dct_plane ch bs lvl quant (arrays st)) as Hplane.
    destruct (process_channel_dct dct_entry idct_entry resize_linear ch bs lvl quant
                (arrays st)) as [[p cs] s1].
    cbn [fst] in Hplane. subst p.
    destruct (IH (S i0) (pcs ++ [plane bs lvl quant ch]) (dcs ++ [cs])
                (set_progress (channel_progress n i0) (set_arrays s1 st)))
      as (coeffs & s & Hrun & Hlc).
    exists (cs :: coeffs), s. split; [|simpl; by rewrite Hlc].
    etrans; [exact Hrun|].
    cbn [original_image processed_image dct_coefficients compression_ratio psnr_value
         compression_level block_size color_space quantization progress_var
         status_message set_progress set_arrays fmap list_fmap].
    by rewrite <- !app_assoc.
Qed.

Lemma apply_dct_result st img :
  original_image st = Some img ->
  exists pv dcs s,
    run st =
    match rebuilt img (inject_Z (compression_level st) / 100)%Q (block_size st)
            (color_space st) (quantization st) with
    | None =>
        MkApp (Some img) (processed_image st) (dct_coefficients st)
          (compression_ratio st) (psnr_value st) (compression_level st)
          (block_size st) (color_space st) (quantization st)
          (progress_var st ++ pv) "Processing failed" s
    | Some pimg =>
        ending
          (MkApp (Some img) (Some pimg) (Some dcs)
             (compression_ratio st) (psnr_value st) (compression_level st)
             (block_size st) (color_space st) (quantization st)
             (progress_var st ++ pv) "Applying DCT compression..." s)
    end.
Proof.
  intros Ho. unfold apply_dct. rewrite Ho. unfold _apply_dct_thread, show_progress.
  cbn [original_image set_progress set_status color_space block_size quantization
       compression_level]. rewrite Ho. cbn [mbind option_bind].
  unfold reconstruction.
  set (lvl := (inject_Z (compression_level st) / 100)%Q).
  match goal with
  | |- context [match ?c with Some _ => _ | None => processing_failed _ end] =>
      destruct c as [chs|] eqn:Hchs
  end.
  - set (st2 := set_progress _ (set_progress _ (set_status _ (set_progress _ st)))).
    destruct (channels_loop_planes (length chs) (block_size st) lvl (quantization st)
                chs 0 [] [] st2) as (coeffs & s & Hrun & _).
    unfold enumerate. rewrite Hrun. cbn [app].
    generalize (plane (block_size st) lvl (quantization st) <$> chs). intros planes.
    assert (forall (merged : option ndarray),
      exists pv dcs s0,
        match
          (img0 ← merged;
           if String.eqb (color_space st) "YCbCr"
           then cvtColor bgr2ycrcb ycrcb2bgr bgr2gray img0 COLOR_YCrCb2BGR
           else if String.eqb (color_space st) "Grayscale"
                then cvtColor bgr2ycrcb ycrcb2bgr bgr2gray img0 COLOR_GRAY2BGR
                else Some img0)
        with
        | Some processed_img =>
            match metrics
                    (set_result processed_img ([] ++ coeffs)
                       (MkApp (original_image st2) (processed_image st2)
                          (dct_coefficients st2) (compression_ratio st2) (psnr_value st2)
                          (compression_level st2) (block_size st2) (color_space st2)
                          (quantization st2)
                          (progress_var st2 ++
                             (channel_progress (length chs) <$> seq 0 (length chs)))
                          (status_message st2) s))
            with
            | Returned st0 => set_status "Processing completed" st0
            | Raised st0 => processing_failed st0
            end
        | None =>
            processing_failed
              (MkApp (original_image st2) (processed_image st2)
                 (dct_coefficients st2) (compression_ratio st2) (psnr_value st2)
                 (compression_level st2) (block_size st2) (color_space st2)
                 (quantization st2)
                 (progress_var st2 ++
                    (channel_progress (length chs) <$> seq 0 (length chs)))
                 (status_message st2) s)
        end =
        match
          (img0 ← merged;
           if String.eqb (color_space st) "YCbCr"
           then cvtColor bgr2ycrcb ycrcb2bgr bgr2gray img0 COLOR_YCrCb2BGR
           else if String.eqb (color_space st) "Grayscale"
                then cvtColor bgr2ycrcb ycrcb2bgr bgr2gray img0 COLOR_GRAY2BGR
                else Some img0)
        with
        | None =>
            MkApp (Some img) (processed_image st) (dct_coefficients st)
              (compression_ratio st) (psnr_value st) (compression_level st)
              (block_size st) (color_space st) (quantization st)
              (progress_var st ++ pv) "Processing failed" s0
        | Some pimg =>
            ending
              (MkApp (Some img) (Some pimg) (Some dcs)
                 (compression_ratio st) (psnr_value st) (compression_level st)
                 (block_size st) (color_space st) (quantization st)
                 (progress_var st ++ pv) "Applying DCT compression..." s0)
        end) as Hend.
    { intros merged.
      eexists _, coeffs, s.
      destruct (merged ≫= _) as [pimg|].
      - unfold finish, set_result.
        cbn [original_image processed_image dct_coefficients compression_ratio psnr_value
             compression_level block_size color_space quantization progress_var
             status_message arrays set_progress set_status st2 app].
        rewrite Ho, <- !app_assoc. reflexivity.
      - unfold processing_failed, set_status.
        cbn [original_image processed_image dct_coefficients compression_ratio psnr_value
             compression_level block_size color_space quantization progress_var
             status_message arrays set_progress set_status st2].
        rewrite Ho, <- !app_assoc. reflexivity. }
    destruct planes as [|p0 [|p1 ps]]; apply Hend.
  - eexists _, [], (arrays st). unfold processing_failed, set_status.
    cbn [original_image processed_image dct_coefficients compression_ratio psnr_value
         compression_level block_size color_space quantization progress_var
         status_message arrays set_progress set_status].
    rewrite Ho, <- !app_assoc. reflexivity.
Qed.


Lemma finish_keeps_images st :
  original_image (ending st) = original_image st /\
  processed_image (ending st) = processed_image st /\
  dct_coefficients (ending st) = dct_coefficients st.
Proof.
  unfold finish, calculate_metrics.
  destruct (metrics_mse _ _ _ st) as [mse|]; [|done].
  cbn [set_psnr compression_level].
  by destruct (ratio_of_level (compression_level st)).
Qed.

(** The metrics read the two images and the slider value, nothing
    else. *)
Lemma finish_frame st1 st2 :
  original_image st1 = original_image st2 ->
  processed_image st1 = processed_image st2 ->
  compression_level st1 = compression_level st2 ->
  status_message (ending st1) = "Processing completed"%string ->
  status_message (ending st2) = "Processing completed"%string /\
  psnr_value (ending st2) = psnr_value (ending st1) /\
  compression_ratio (ending st2) = compression_ratio (ending st1).
Proof.
  destruct st1 as [o1 p1 d1 r1 ps1 l1 b1 c1 q1 pv1 sm1 a1],
           st2 as [o2 p2 d2 r2 ps2 l2 b2 c2 q2 pv2 sm2 a2].
  cbn [original_image processed_image compression_level].
  intros -> -> ->. unfold finish, calculate_metrics, metrics_mse.
  cbn [original_image processed_image compression_level set_psnr].
  match goal with
  | |- context [match ?c with Some _ => _ | None => Raised _ end] => destruct c as [mse|]
  end; [|done].
  match goal with
  | |- context [ratio_of_level ?l] => destruct (ratio_of_level l)
  end; done.
Qed.


(** A run reads the original image and the four settings only: the
    image a completed run stores is [reconstruction] of the original
    and the settings, and two states that agree on them end with the
    same reconstruction, PSNR and ratio, whatever they held before (a
    previous reconstruction, other metrics, other arrays). Processing
    again does not compress the result of the previous run. *)
Theorem processing_starts_from_the_original st1 st2 img :
  original_image st1 = Some img -> original_image st2 = Some img ->
  compression_level st1 = compression_level st2 ->
  block_size st1 = block_size st2 ->
  color_space st1 = color_space st2 ->
  quantization st1 = quantization st2 ->
  status_message (run st1) = "Processing completed"%string ->
  status_message (run st2) = "Processing completed"%string /\
  processed_image (run st2) = processed_image (run st1) /\
  psnr_value (run st2) = psnr_value (run st1) /\
  compression_ratio (run st2) = compression_ratio (run st1) /\
  processed_image (run st1) =
    reconstruction dct_entry idct_entry resize_linear bgr2ycrcb ycrcb2bgr bgr2gray
      img (inject_Z (compression_level st1) / 100)%Q (block_size st1)
      (color_space st1) (quantization st1).
Proof.
  intros Ho1 Ho2 Hl Hb Hc Hq.
  destruct (apply_dct_result st1 img Ho1) as (pv1 & dcs1 & s1 & ->).
  destruct (apply_dct_result st2 img Ho2) as (pv2 & dcs2 & s2 & ->).
  rewrite <- Hl, <- Hb, <- Hc, <- Hq.
  destruct (rebuilt img _ _ _ _) as [pimg|]; [|done].
  intros Hdone.
  match goal with
  | |- status_message (ending ?b) = _ /\ _ =>
      match type of Hdone with
      | status_message (ending ?a) = _ =>
          destruct (finish_frame a b) as (H1 & H2 & H3); [done|done|done|done|];
          destruct (finish_keeps_images a) as (_ & Ha & _);
          destruct (finish_keeps_images b) as (_ & Hb' & _)
      end
  end.
  split; [done|]. split; [by rewrite Ha, Hb'|].
  split; [done|]. split; [done|]. by rewrite Ha.
Qed.



End RunResult.

(** ** The ratio and the mean *)

Lemma ratio_range_table :
  forallb ratio_range_ok (seqZ 1 100) && forallb ratio_beyond_ok (seqZ 101 200) = true.
Proof. vm_compute. reflexivity. Qed.

(** For the slider values 1 to 100 the ratio [calculate_metrics]
    stores lies in (1/2, 1], and it is 1 at the value 100 only. *)
Theorem ratio_between_half_and_one level :
  (1 <= level <= 100)%Z ->
  exists r,
    ratio_of_level level = Some r /\
    (1 # 2 < Ieee.to_Q r)%Q /\ (Ieee.to_Q r <= 1)%Q /\
    ((Ieee.to_Q r == 1)%Q <-> level = 100%Z).
Proof.
  intros Hl. pose proof ratio_range_table as H. apply andb_true_iff in H as [H _].
  rewrite forallb_forall in H.
  specialize (H level ltac:(apply list_elem_of_In, elem_of_seqZ; lia)).
  unfold ratio_range_ok in H. destruct (ratio_of_level level) as [r|]; [|done].
  apply andb_true_iff in H as [H Heq]. apply andb_true_iff in H as [Hlo Hhi].
  exists r. split; [done|]. split; [|split].
  - apply Qnot_le_lt. intros Hle. apply Qle_bool_iff in Hle. by rewrite Hle in Hlo.
  - by apply Qle_bool_iff.
  - apply Bool.eqb_prop in Heq. rewrite <- Qeq_bool_iff, Heq. apply Z.eqb_eq.
Qed.

(** Above the slider range, for the values 101 to 300 (which only an
    edited settings file can set): the ratio exceeds 1 up to 199, the
    division raises [ZeroDivisionError] at 200 and only there, and the
    ratio is negative above 200. *)
Theorem ratio_above_the_slider_range level :
  (100 < level <= 300)%Z ->
  (ratio_of_level level = None <-> level = 200%Z) /\
  (forall r, ratio_of_level level = Some r ->
     ((level < 200)%Z -> (1 < Ieee.to_Q r)%Q) /\
     ((200 < level)%Z -> (Ieee.to_Q r < 0)%Q)).
Proof.
  intros Hl. pose proof ratio_range_table as H. apply andb_true_iff in H as [_ H].
  rewrite forallb_forall in H.
  specialize (H level ltac:(apply list_elem_of_In, elem_of_seqZ; lia)).
  unfold ratio_beyond_ok in H. destruct (ratio_of_level level) as [r|].
  - destruct (Z.ltb_spec level 200) as [Hlt|Hge].
    + split; [split; [done|lia]|]. intros r' [= <-]. split; [|lia].
      intros _. apply Qnot_le_lt. intros Hle. apply Qle_bool_iff in Hle.
      by rewrite Hle in H.
    + apply andb_true_iff in H as [Hne Hneg].
      apply negb_true_iff, Z.eqb_neq in Hne.
      split; [split; [done|lia]|]. intros r' [= <-]. split; [lia|].
      intros _. apply Qnot_le_lt. intros Hle. apply Qle_bool_iff in Hle.
      by rewrite Hle in Hneg.
  - apply Z.eqb_eq in H. split; [done|]. intros r' [=].
Qed.

Section FailedRun.

Variable dct_entry idct_entry : matrix Q -> nat -> nat -> Q.
Variable resize_linear : matrix Q -> nat -> nat -> nat -> nat -> Q.
Variable bgr2ycrcb ycrcb2bgr : Z * Z * Z -> Z * Z * Z.
Variable bgr2gray : Z * Z * Z -> Z.
Variable log10 : spec_float -> spec_float.

Local Abbreviation run :=
  (apply_dct dct_entry idct_entry resize_linear bgr2ycrcb ycrcb2bgr bgr2gray log10).


End FailedRun.

(** ** Binary64 facts for the mean *)

Lemma digits2_bounds p :
  (2 ^ (Zpos (digits2_pos p) - 1) <= Zpos p < 2 ^ Zpos (digits2_pos p))%Z.
Proof.
  induction p as [p IH|p IH|]; cbn [digits2_pos].
  - rewrite Pos2Z.inj_succ.
    replace (Z.succ (Zpos (digits2_pos p)) - 1)%Z with (Z.succ (Zpos (digits2_pos p) - 1))%Z
      by lia.
    rewrite !Z.pow_succ_r by lia. lia.
  - rewrite Pos2Z.inj_succ.
    replace (Z.succ (Zpos (digits2_pos p)) - 1)%Z with (Z.succ (Zpos (digits2_pos p) - 1))%Z
      by lia.
    rewrite !Z.pow_succ_r by lia. lia.
  - done.
Qed.

Lemma digits2_of_range p d :
  (2 ^ (d - 1) <= Zpos p < 2 ^ d)%Z -> (1 <= d)%Z -> Zpos (digits2_pos p) = d.
Proof.
  intros [Hlo Hhi] Hd. pose proof (digits2_bounds p) as [Hlo' Hhi'].
  assert (d - 1 < Zpos (digits2_pos p))%Z
    by (apply (Z.pow_lt_mono_r_iff 2); lia).
  assert (Zpos (digits2_pos p) - 1 < d)%Z
    by (apply (Z.pow_lt_mono_r_iff 2); lia).
  lia.
Qed.

Lemma shr_m_of_loc m l : shr_m (shr_record_of_loc m l) = m.
Proof. by destruct l as [|[]]. Qed.

Lemma shr_m_shr_1 mrs p :
  shr_m mrs = Zpos p -> shr_m (shr_1 mrs) = Z.div2 (Zpos p).
Proof. destruct mrs as [m r s]. simpl. intros ->. by destruct p. Qed.

Lemma round_nearest_even_range m l :
  (m <= round_nearest_even m l <= m + 1)%Z.
Proof. destruct l as [|[]]; simpl; [lia|destruct (Z.even m); lia|lia|lia]. Qed.

(** A mantissa of 53 or 54 bits and an exponent above the subnormal
    range: the shift leaves 53 bits. *)
Lemma shr_fexp_normal m e l :
  (2 ^ 52 <= m < 2 ^ 54)%Z -> (-1074 <= e)%Z ->
  (2 ^ 52 <= shr_m (shr_fexp 53 1024 m e l).1 < 2 ^ 53)%Z /\
  (e <= (shr_fexp 53 1024 m e l).2)%Z.
Proof.
  intros Hm He. destruct m as [|p|p]; [lia| |lia].
  unfold shr_fexp, Zdigits2.
  destruct (Z_lt_ge_dec (Zpos p) (2 ^ 53)) as [Hlt|Hge].
  - rewrite (digits2_of_range p 53) by lia.
    replace (fexp 53 1024 (53 + e) - e)%Z with 0%Z by (unfold fexp, emin; lia).
    cbn [shr fst snd]. rewrite shr_m_of_loc. lia.
  - rewrite (digits2_of_range p 54) by lia.
    replace (fexp 53 1024 (54 + e) - e)%Z with 1%Z by (unfold fexp, emin; lia).
    cbn [shr fst snd iter_pos].
    rewrite (shr_m_shr_1 _ p) by apply shr_m_of_loc.
    rewrite Z.div2_div.
    split; [|lia]. split.
    + apply Z.div_le_lower_bound; lia.
    + apply Z.div_lt_upper_bound; lia.
Qed.

(** Rounding such a mantissa never gives a zero. *)
Lemma binary_round_aux_nonzero sx m e l :
  (2 ^ 52 <= m < 2 ^ 54)%Z -> (-1074 <= e)%Z ->
  SFeqb (binary_round_aux 53 1024 sx m e l) (S754_zero false) = false.
Proof.
  intros Hm He. unfold binary_round_aux.
  pose proof (shr_fexp_normal m e l Hm He) as [Hm1 He1].
  destruct (shr_fexp 53 1024 m e l) as [mrs1 e1]. cbn [fst snd] in *.
  pose proof (round_nearest_even_range (shr_m mrs1) (loc_of_shr_record mrs1)) as Hr.
  set (m2 := round_nearest_even _ _) in *.
  pose proof (shr_fexp_normal m2 e1 loc_Exact ltac:(lia) ltac:(lia)) as [Hm3 _].
  destruct (shr_fexp 53 1024 m2 e1 loc_Exact) as [mrs3 e3]. cbn [fst snd] in *.
  destruct (shr_m mrs3) as [|p3|p3]; [lia| |lia].
  by destruct (e3 <=? 1024 - 53)%Z, sx.
Qed.

Lemma pos_iter_xO p k : Zpos (Pos.iter xO p k) = (Zpos p * 2 ^ Zpos k)%Z.
Proof.
  induction k as [|k IH] using Pos.peano_ind.
  - simpl. lia.
  - rewrite Pos.iter_succ, Pos2Z.inj_succ, Z.pow_succ_r by lia.
    rewrite Pos2Z.inj_xO, IH. lia.
Qed.

(** A positive integer below 2^53 converts exactly, to a normal number
    with a 53-bit mantissa. *)
Lemma of_Z_normal z :
  (0 < z < 2 ^ 53)%Z ->
  exists m e, Ieee.of_Z z = S754_finite false m e /\
              (2 ^ 52 <= Zpos m < 2 ^ 53)%Z /\ (-52 <= e <= 0)%Z.
Proof.
  intros Hz. destruct z as [|p|p]; [lia| |lia].
  unfold Ieee.of_Z, binary_normalize, binary_round.
  pose proof (digits2_bounds p) as Hd.
  set (d := Zpos (digits2_pos p)) in *.
  assert (1 <= d <= 53)%Z as Hd53.
  { split; [unfold d; lia|].
    assert (d - 1 < 53)%Z by (apply (Z.pow_lt_mono_r_iff 2); lia). lia. }
  replace (fexp 53 1024 (d + 0)) with (d - 53)%Z by (unfold fexp, emin; lia).
  unfold shl_align.
  assert (exists mz ez,
            (match (d - 53 - 0)%Z with
             | Zneg k => (Pos.iter xO p k, (d - 53)%Z)
             | _ => (p, 0%Z)
             end) = (mz, ez) /\
            (2 ^ 52 <= Zpos mz < 2 ^ 53)%Z /\ (-52 <= ez <= 0)%Z) as (mz & ez & -> & Hmz & Hez).
  { destruct (d - 53 - 0)%Z as [|k|k] eqn:Hk; [|lia|].
    - exists p, 0%Z. split; [done|]. replace d with 53%Z in Hd by lia. lia.
    - exists (Pos.iter xO p k), (d - 53)%Z. split; [done|]. split; [|lia].
      rewrite pos_iter_xO.
      replace (Zpos k) with (53 - d)%Z by lia.
      replace (2 ^ 52)%Z with (2 ^ (d - 1) * 2 ^ (53 - d))%Z
        by (rewrite <- Z.pow_add_r by lia; f_equal; lia).
      replace (2 ^ 53)%Z with (2 ^ d * 2 ^ (53 - d))%Z
        by (rewrite <- Z.pow_add_r by lia; f_equal; lia).
      assert (0 < 2 ^ (53 - d))%Z by (apply Z.pow_pos_nonneg; lia).
      split; [apply Z.mul_le_mono_nonneg_r; lia | apply Z.mul_lt_mono_pos_r; lia]. }
  exists mz, ez. split; [|done].
  unfold binary_round_aux, shr_fexp, Zdigits2.
  rewrite (digits2_of_range mz 53) by lia.
  replace (fexp 53 1024 (53 + ez) - ez)%Z with 0%Z by (unfold fexp, emin; lia).
  cbn [shr shr_record_of_loc shr_m loc_of_shr_record round_nearest_even Zdigits2].
  rewrite (digits2_of_range mz 53) by lia.
  replace (fexp 53 1024 (53 + ez) - ez)%Z with 0%Z by (unfold fexp, emin; lia).
  cbn [shr shr_m].
  destruct (Z.leb_spec ez (1024 - 53)); [done|lia].
Qed.

(** The quotient of two such numbers is not zero. *)
Lemma div64_nonzero s n :
  (0 < s < 2 ^ 53)%Z -> (0 < n < 2 ^ 53)%Z ->
  SFeqb (Ieee.div64 (Ieee.of_Z s) (Ieee.of_Z n)) (S754_zero false) = false.
Proof.
  intros Hs Hn.
  destruct (of_Z_normal s Hs) as (ms & es & -> & Hms & Hes).
  destruct (of_Z_normal n Hn) as (mn & en & -> & Hmn & Hen).
  unfold Ieee.div64, SFdiv, SFdiv_core_binary, Zdigits2.
  rewrite (digits2_of_range ms 53), (digits2_of_range mn 53) by lia.
  replace (Z.min (fexp 53 1024 (53 + es - (53 + en))) (es - en))
    with (es - en - 53)%Z by (unfold fexp, emin; lia).
  replace (es - en - (es - en - 53))%Z with 53%Z by lia.
  rewrite Z.shiftl_mul_pow2 by lia.
  pose proof (Z_div_mod (Zpos ms * 2 ^ 53) (Zpos mn) ltac:(lia)) as Hdiv.
  destruct (Z.div_eucl (Zpos ms * 2 ^ 53) (Zpos mn)) as [q r].
  destruct Hdiv as [Hq Hr].
  apply binary_round_aux_nonzero; [|lia].
  assert (0 < 2 ^ 52)%Z by lia.
  split.
  - assert (2 ^ 52 * Zpos mn <= Zpos ms * 2 ^ 53)%Z by nia. nia.
  - assert (Zpos ms * 2 ^ 53 < 2 ^ 54 * Zpos mn)%Z by nia. nia.
Qed.

Lemma div64_zero n :
  (0 < n < 2 ^ 53)%Z ->
  SFeqb (Ieee.div64 (Ieee.of_Z 0) (Ieee.of_Z n)) (S754_zero false) = true.
Proof.
  intros Hn. destruct (of_Z_normal n Hn) as (mn & en & -> & _). done.
Qed.

(** ** When the computed mean is zero *)

Lemma wraps_to_zero_table : forallb wraps_to_zero_ok (seqZ 0 256) = true.
Proof. vm_compute. reflexivity. Qed.

(** A squared difference wraps to 0 in [uint8] exactly when the
    difference is a multiple of 16. *)
Lemma uint8_square_zero_iff x y :
  uint8_sq (uint8_sub x y) = 0%Z <-> ((x - y) mod 16 = 0)%Z.
Proof.
  unfold uint8_sq, uint8_sub.
  set (r := ((x - y) mod 256)%Z).
  assert (0 <= r < 256)%Z as Hr by (apply Z.mod_pos_bound; lia).
  assert (((x - y) mod 16)%Z = (r mod 16)%Z) as ->.
  { unfold r. symmetry. apply Z.mod_mod_divide. exists 16%Z. lia. }
  pose proof wraps_to_zero_table as H. rewrite forallb_forall in H.
  specialize (H r ltac:(apply list_elem_of_In, elem_of_seqZ; lia)).
  unfold wraps_to_zero_ok in H. apply Bool.eqb_prop in H.
  rewrite <- !Z.eqb_eq. by rewrite H.
Qed.

Lemma sum_of_samples (l : list Z) :
  Forall (fun v => 0 <= v <= 255)%Z l ->
  (0 <= foldr Z.add 0 l <= 255 * Z.of_nat (length l))%Z /\
  (foldr Z.add 0%Z l = 0%Z <-> Forall (fun v => v = 0%Z) l).
Proof.
  induction 1 as [|v l Hv Hl [IH1 IH2]]; [done|].
  cbn [foldr length]. split; [lia|]. split.
  - intros Hs. apply Forall_cons. split; [lia|]. apply IH2. lia.
  - intros [-> Hz]%Forall_cons. apply IH2 in Hz. lia.
Qed.

(** [np.mean] of fewer than 2^45 [uint8] samples is zero exactly when
    every sample is zero. *)
Lemma np_mean_zero_iff (l : list Z) :
  Forall (fun v => 0 <= v <= 255)%Z l ->
  0 < length l -> (Z.of_nat (length l) < 2 ^ 45)%Z ->
  SFeqb (np_mean l) (S754_zero false) = true <-> Forall (fun v => v = 0%Z) l.
Proof.
  intros Hl Hpos Hlen. destruct (sum_of_samples l Hl) as [Hsum Hzero].
  unfold np_mean. rewrite <- Hzero.
  destruct (Z.eq_dec (foldr Z.add 0%Z l) 0%Z) as [->|Hne].
  - rewrite div64_zero by lia. done.
  - rewrite div64_nonzero by lia. done.
Qed.

Lemma length_flatten_bgr img h w :
  bgr_image img h w -> length (flatten img) = 3 * (h * w).
Proof.
  destruct img as [|m]; [done|]. intros [[<- Hw] Hpx]. simpl.
  induction m as [|row m IH]; [done|].
  apply Forall_cons in Hw as [Hrow Hw], Hpx as [Hpx1 Hpx].
  cbn [concat length]. rewrite concat_app, length_app, IH by done.
  assert (length (concat row) = 3 * w) as ->; [|lia].
  rewrite <- Hrow. clear -Hpx1.
  induction Hpx1 as [|px row Hp Hpx1 IH]; [done|].
  cbn [concat length]. rewrite length_app, IH, Hp. lia.
Qed.

Lemma Forall_zip_with_same {A B C : Type} (f : A -> B -> C) (P : C -> Prop)
    (la : list A) (lb : list B) :
  length la = length lb ->
  Forall P (zip_with f la lb) <-> Forall2 (fun a b => P (f a b)) la lb.
Proof.
  revert lb. induction la as [|a la IH]; intros [|b lb] Hlen; try done.
  cbn [zip_with]. rewrite Forall_cons, Forall2_cons, IH by (simpl in Hlen; lia). done.
Qed.

(** The [mse == 0] branch of [calculate_metrics], which sets the PSNR
    to infinity, is taken exactly when every sample of the
    reconstruction differs from the sample of the original by a multiple
    of 16 (for images of fewer than 2^45 samples). *)
Theorem infinite_psnr_iff_multiples_of_16 (log10 : spec_float -> spec_float) a b h w :
  bgr_image a h w -> bgr_image b h w -> 0 < h -> 0 < w ->
  (Z.of_nat (3 * (h * w)) < 2 ^ 45)%Z ->
  exists mse,
    np_mse a b = Some mse /\
    (SFeqb mse (S754_zero false) = true <->
     Forall2 (fun x y => ((x - y) mod 16 = 0)%Z) (flatten a) (flatten b)) /\
    (Forall2 (fun x y => ((x - y) mod 16 = 0)%Z) (flatten a) (flatten b) ->
     psnr_of_mse log10 mse = S754_infinity false).
Proof.
  intros Ha Hb Hh Hw Hsize. unfold np_mse.
  rewrite (shape_eqb_images a b h w) by done.
  eexists. split; [done|].
  pose proof (length_flatten_bgr a h w Ha) as Hla.
  pose proof (length_flatten_bgr b h w Hb) as Hlb.
  set (sq := zip_with _ _ _).
  assert (length sq = 3 * (h * w)) as Hlsq
    by (unfold sq; rewrite length_zip_with; lia).
  assert (SFeqb (np_mean sq) (S754_zero false) = true <->
          Forall2 (fun x y => ((x - y) mod 16 = 0)%Z) (flatten a) (flatten b)) as Hiff.
  { rewrite np_mean_zero_iff.
    - unfold sq. rewrite Forall_zip_with_same by lia.
      split; intros H; (eapply Forall2_impl; [exact H|]); intros x y; apply uint8_square_zero_iff.
    - unfold sq. apply Forall_zip_with_same; [lia|].
      apply Forall2_same_length_lookup_2; [lia|]. intros i x y _ _.
      unfold uint8_sq. pose proof (Z.mod_pos_bound (uint8_sub x y * uint8_sub x y) 256).
      lia.
    - rewrite Hlsq. nia.
    - by rewrite Hlsq. }
  split; [done|].
  intros H. apply Hiff in H. unfold psnr_of_mse. by rewrite H.
Qed.

(** ** The recent files *)

Lemma str_eq_spec f v : str_eq f v = true <-> v = JStr f.
Proof.
  destruct v; simpl; try (split; [done | intros [=]]).
  rewrite String.eqb_eq. split; [by intros -> | by intros [= ->]].
Qed.

Lemma list_remove_absent f l : existsb (str_eq f) l = false -> list_remove f l = l.
Proof.
  induction l as [|v l IH]; [done|]. simpl. intros H.
  apply orb_false_iff in H as [Hv Hl]. rewrite Hv. by rewrite IH.
Qed.

Lemma without_remove f l : without f l = list_remove f l.
Proof.
  unfold without. destruct (existsb (str_eq f) l) eqn:H; [done|].
  by rewrite list_remove_absent.
Qed.

Lemma filter_all {A : Type} (P : A -> Prop) `{forall x, Decision (P x)} (l : list A) :
  Forall P l -> filter P l = l.
Proof.
  induction 1 as [|x l Hx Hl IH]; [done|].
  rewrite filter_cons_True by done. by rewrite IH.
Qed.

Lemma list_remove_filter f l :
  NoDup l -> list_remove f l = filter (fun v => str_eq f v = false) l.
Proof.
  induction l as [|v l IH]; [done|]. intros Hnd.
  apply NoDup_cons in Hnd as [Hv Hnd]. simpl.
  destruct (str_eq f v) eqn:Hfv.
  - rewrite filter_cons_False by (by rewrite Hfv).
    symmetry. apply filter_all, Forall_forall. intros v' Hv'.
    destruct (str_eq f v') eqn:Hfv'; [|done].
    apply str_eq_spec in Hfv, Hfv'. congruence.
  - rewrite filter_cons_True by done. by rewrite IH.
Qed.

Lemma take_ten {A : Type} (l : list A) :
  (if 10 <? length l then take 10 l else l) = take 10 l.
Proof.
  destruct (Nat.ltb_spec 10 (length l)); [done|]. by rewrite take_ge.
Qed.

(** The method on a list-valued (or absent) entry. *)
Lemma add_to_recent_files_list f p l :
  recent_files p = Some l ->
  add_to_recent_files f p =
  Some (save_settings
          (MkPrefs (<["recent_files"%string := JList (take 10 (JStr f :: without f l))]>
                      (settings p)) (saved p))).
Proof.
  unfold recent_files, add_to_recent_files.
  destruct (settings p !! "recent_files"%string) as [v|] eqn:Hv.
  - destruct v; try done. intros [= ->]. rewrite Hv. by rewrite take_ten.
  - intros [= <-]. rewrite lookup_insert_eq, take_ten, insert_insert_eq. done.
Qed.

Lemma recent_files_insert s sv l :
  recent_files (save_settings (MkPrefs (<["recent_files"%string := JList l]> s) sv)) = Some l.
Proof. unfold recent_files, save_settings. simpl. by rewrite lookup_insert_eq. Qed.

Lemma NoDup_take {A : Type} (l : list A) n : NoDup l -> NoDup (take n l).
Proof.
  intros H. eapply sublist_NoDup; [exact H | apply sublist_take].
Qed.

Lemma NoDup_reverse {A : Type} (l : list A) : NoDup l -> NoDup (reverse l).
Proof. intros H. by rewrite reverse_Permutation. Qed.

Lemma filter_JStr f (l : list string) :
  filter (fun v => str_eq f v = false) (JStr <$> l) =
  JStr <$> filter (fun x => x <> f) l.
Proof.
  induction l as [|x l IH]; [done|].
  rewrite fmap_cons. destruct (decide (x = f)) as [->|Hne].
  - rewrite filter_cons_False by (simpl; by rewrite String.eqb_refl).
    by rewrite (filter_cons_False _ f) by (by intros ?).
  - rewrite filter_cons_True.
    + rewrite (filter_cons_True _ x) by done. by rewrite fmap_cons, IH.
    + simpl. apply String.eqb_neq. by intros ->.
Qed.

(** The most recent occurrence of every name, the most recent first. *)
Lemma remove_dups_snoc (fs : list string) f :
  remove_dups (fs ++ [f]) = filter (fun x => x <> f) (remove_dups fs) ++ [f].
Proof.
  induction fs as [|x fs IH]; [done|].
  cbn [app remove_dups].
  destruct (decide_rel elem_of x (fs ++ [f])) as [Hin|Hnin];
    destruct (decide_rel elem_of x fs) as [Hin'|Hnin'].
  - done.
  - apply elem_of_app in Hin as [Hin|Hin]; [done|].
    apply list_elem_of_singleton in Hin as ->.
    by rewrite filter_cons_False by (by intros ?).
  - exfalso. apply Hnin, elem_of_app. by left.
  - rewrite filter_cons_True.
    + by rewrite IH.
    + intros ->. apply Hnin, elem_of_app. right. by left.
Qed.

Lemma take_filter_one (f : string) (D : list string) : forall k,
  NoDup D ->
  take k (filter (fun x => x <> f) (take (S k) D)) = take k (filter (fun x => x <> f) D).
Proof.
  induction D as [|x D IH]; intros k Hnd; [done|].
  apply NoDup_cons in Hnd as [Hx Hnd].
  cbn [take]. destruct (decide (x = f)) as [->|Hne].
  - rewrite !filter_cons_False by (by intros ?).
    assert (Forall (fun x => x <> f) D) as Hall
      by (apply Forall_forall; intros y Hy ->; done).
    rewrite (filter_all _ D) by done.
    rewrite (filter_all _ (take k D)) by (by apply Forall_take).
    apply take_idemp.
  - rewrite !filter_cons_True by done.
    destruct k as [|k]; [done|]. cbn [take]. f_equal. by apply IH.
Qed.

Lemma add_to_recent_files_not_list f p :
  recent_files p = None -> add_to_recent_files f p = None.
Proof.
  unfold add_to_recent_files, recent_files.
  destruct (settings p !! "recent_files"%string) as [v|] eqn:Hv; [|done].
  rewrite Hv. by destruct v.
Qed.



(** Adding the file that was added last changes nothing. *)
Theorem add_to_recent_files_idempotent f p p1 :
  add_to_recent_files f p = Some p1 ->
  exists p2, add_to_recent_files f p1 = Some p2 /\ settings p2 = settings p1.
Proof.
  intros H1.
  assert (exists l, recent_files p = Some l) as [l Hl].
  { unfold add_to_recent_files, recent_files in *.
    destruct (settings p !! "recent_files"%string) as [v|] eqn:Hv; [|by eexists].
    rewrite Hv in H1. destruct v; try done. by eexists. }
  rewrite (add_to_recent_files_list f p l Hl) in H1. injection H1 as <-.
  erewrite add_to_recent_files_list by apply recent_files_insert.
  eexists. split; [done|]. simpl. rewrite insert_insert_eq. do 2 f_equal.
  rewrite (without_remove f (JStr f :: _)). simpl. rewrite String.eqb_refl.
  cbn [take]. f_equal. rewrite take_take. done.
Qed.


(** Starting without recent files, after the files [files] have been
    opened in turn the list holds the ten most recently opened distinct
    files, the most recent first. *)
Theorem recent_files_are_most_recent files p :
  recent_files p = Some [] ->
  exists p',
    open_files files p = Some p' /\
    recent_files p' = Some (JStr <$> take 10 (reverse (remove_dups files))).
Proof.
  intros Hp. induction files as [|f files IH] using rev_ind.
  - exists p. by split.
  - destruct IH as (p1 & Hopen & Hrec).
    unfold open_files in *. rewrite foldl_snoc, Hopen. cbn [mbind option_bind].
    rewrite (add_to_recent_files_list f p1 _ Hrec).
    eexists. split; [done|]. rewrite recent_files_insert. f_equal.
    rewrite without_remove, list_remove_filter
      by (apply NoDup_fmap_2; [by intros ?? [=] | apply NoDup_take, NoDup_reverse, NoDup_remove_dups]).
    rewrite filter_JStr, remove_dups_snoc, reverse_snoc.
    cbn [take fmap list_fmap]. f_equal.
    rewrite <- fmap_take. f_equal.
    rewrite <- (filter_reverse _ (remove_dups files)).
    apply take_filter_one, NoDup_reverse, NoDup_remove_dups.
Qed.

(** [clear_recent_files] replaces any ['recent_files'] entry, also one
    that is not a list, by the empty list and saves; without such an
    entry it changes and saves nothing. *)
Theorem clear_recent_files_empties p :
  (is_Some (settings p !! "recent_files"%string) ->
     recent_files (clear_recent_files p) = Some [] /\
     last (saved (clear_recent_files p)) = Some (settings (clear_recent_files p)) /\
     forall f, exists p',
       add_to_recent_files f (clear_recent_files p) = Some p' /\
       recent_files p' = Some [JStr f]) /\
  (settings p !! "recent_files"%string = None -> clear_recent_files p = p).
Proof.
  unfold clear_recent_files. split.
  - intros [v ->]. split; [apply recent_files_insert|]. split; [apply last_snoc|].
    intros f. erewrite add_to_recent_files_list by apply recent_files_insert.
    eexists. split; [done|]. by rewrite recent_files_insert.
  - by intros ->.
Qed.

(** ** The history and the loading of a file *)

Section GuiTheorems.

Variable display_image : canvas -> ndarray -> bool.
Variable update_histogram : ndarray -> bool.
Variable imread : string -> option ndarray.
Variable getsize : string -> option Z.
Variable basename : string -> string.

Local Abbreviation update := (_update_after_dct display_image update_histogram).
Local Abbreviation undo := (undo_action display_image update_histogram).
Local Abbreviation load_file :=
  (load_image display_image update_histogram imread getsize basename).

Lemma set_processed_same st img :
  processed_image st = Some img -> set_processed img st = st.
Proof. destruct st. simpl. by intros ->. Qed.

Lemma removelast_snoc {A : Type} (l : list A) (x : A) : removelast (l ++ [x]) = l.
Proof. apply removelast_last. Qed.

(** What an undo leaves of the image, of the history and of the Undo
    button, however the drawing ends. *)
Lemma undo_action_pop s e l :
  history s = l ++ [e] ->
  core (state_of (undo s)) = set_processed (entry_processed e) (core s) /\
  history (state_of (undo s)) = l /\
  (l <> [] -> btn_undo (toolbar_buttons (state_of (undo s))) = btn_undo (toolbar_buttons s)).
Proof.
  intros Hh. unfold undo_action. rewrite Hh, last_snoc, removelast_snoc.
  destruct (bgr2rgb _); [|done].
  destruct (display_image _ _); [destruct (update_histogram _)|]; try done.
  cbn [with_core with_history with_toolbar history core toolbar_buttons].
  by destruct l.
Qed.

(** Undo directly after the callback of a run: the entry the callback
    has just appended holds the reconstruction of that very run, so the
    undo puts back the image that is already there. The fields of the
    application and the history are what they were before the callback;
    the reconstruction of the run before does not come back. *)
Theorem undo_after_a_run_restores_nothing now s s1 :
  is_Some (original_image (core s)) ->
  update now s = Done s1 ->
  core (state_of (undo s1)) = core s /\
  history (state_of (undo s1)) = history s.
Proof.
  intros [o Ho] Hup. unfold _update_after_dct in Hup.
  destruct (processed_image (core s)) as [p|] eqn:Hp; [|done].
  destruct (bgr2rgb p); [|done].
  destruct (display_image _ _); [|done]. destruct (update_histogram p); [|done].
  injection Hup as <-. unfold add_to_history.
  cbn [core with_toolbar]. rewrite Ho, Hp.
  match goal with
  | |- context [undo ?w] =>
      destruct (undo_action_pop w
                  (MkEntry now (compression_level (core s)) (block_size (core s))
                     (color_space (core s)) (psnr_value (core s)) o p)
                  (history s) eq_refl) as (-> & -> & _)
  end.
  cbn [core with_toolbar with_history entry_processed].
  by rewrite set_processed_same.
Qed.

(** [load_image] leaves the history and the Undo button alone. *)
Lemma load_image_history name s :
  history (load_file name s) = history s /\
  btn_undo (toolbar_buttons (load_file name s)) = btn_undo (toolbar_buttons s).
Proof.
  unfold load_image, loading_failed.
  destruct (imread name) as [img|]; [|done].
  destruct (bgr2rgb img); [|done].
  destruct (getsize name); [|done].
  destruct (display_image _ _); [|done].
  destruct (update_histogram img); [|done].
  by destruct (add_to_recent_files _ _).
Qed.

(** A file that [cv2.imread] cannot read: the image that was loaded is
    lost ([original_image] is [None], so [apply_dct] refuses to run),
    the status reports the error, and everything else, the previous
    reconstruction, the file name, the buttons and the recent files
    among it, is as it was. *)
Theorem failed_load_discards_the_original name s :
  imread name = None ->
  original_image (core (load_file name s)) = None /\
  status_message (core (load_file name s)) = "Error loading image"%string /\
  processed_image (core (load_file name s)) = processed_image (core s) /\
  dct_coefficients (core (load_file name s)) = dct_coefficients (core s) /\
  history (load_file name s) = history s /\
  toolbar_buttons (load_file name s) = toolbar_buttons s /\
  prefs (load_file name s) = prefs s /\
  filename (load_file name s) = filename s.
Proof. intros H. unfold load_image. by rewrite H. Qed.

(** A load that goes through: the image read is the original, the DCT
    button is enabled, Save and Compare are disabled, the file heads the
    recent files, which were saved; the reconstruction and the
    coefficient archive of the image loaded before stay in place. *)
Theorem load_image_installs_the_file name s img rgb size l :
  imread name = Some img -> bgr2rgb img = Some rgb -> getsize name = Some size ->
  display_image original_canvas rgb = true -> update_histogram img = true ->
  recent_files (prefs s) = Some l ->
  original_image (core (load_file name s)) = Some img /\
  filename (load_file name s) = Some name /\
  status_message (core (load_file name s)) = ("Loaded: " ++ basename name)%string /\
  btn_dct (toolbar_buttons (load_file name s)) = true /\
  btn_save (toolbar_buttons (load_file name s)) = false /\
  btn_compare (toolbar_buttons (load_file name s)) = false /\
  (exists l', recent_files (prefs (load_file name s)) = Some (JStr name :: l')) /\
  last (saved (prefs (load_file name s))) = Some (settings (prefs (load_file name s))) /\
  processed_image (core (load_file name s)) = processed_image (core s) /\
  dct_coefficients (core (load_file name s)) = dct_coefficients (core s).
Proof.
  intros Hi Hr Hs Hd Hh Hl. unfold load_image.
  rewrite Hi, Hr, Hs, Hd, Hh.
  cbn [prefs with_toolbar with_size with_file with_core].
  rewrite (add_to_recent_files_list name (prefs s) l Hl).
  cbn [core with_core with_prefs with_toolbar toolbar_buttons prefs filename
       set_status set_original original_image status_message processed_image
       dct_coefficients set_save_compare set_dct btn_dct btn_save btn_compare].
  repeat split; try done.
  - rewrite recent_files_insert. by eexists.
  - apply last_snoc.
Qed.

(** A ['recent_files'] entry of the settings that is not a list: the
    image is read, shown and installed as the original, the DCT button
    is enabled, and yet the load is reported as an error; the settings
    are not saved. *)
Theorem load_image_with_bad_recent_files name s img rgb size :
  imread name = Some img -> bgr2rgb img = Some rgb -> getsize name = Some size ->
  display_image original_canvas rgb = true -> update_histogram img = true ->
  recent_files (prefs s) = None ->
  original_image (core (load_file name s)) = Some img /\
  filename (load_file name s) = Some name /\
  btn_dct (toolbar_buttons (load_file name s)) = true /\
  status_message (core (load_file name s)) = "Error loading image"%string /\
  prefs (load_file name s) = prefs s.
Proof.
  intros Hi Hr Hs Hd Hh Hl. unfold load_image.
  rewrite Hi, Hr, Hs, Hd, Hh.
  cbn [prefs with_toolbar with_size with_file with_core].
  by rewrite (add_to_recent_files_not_list name (prefs s) Hl).
Qed.

End GuiTheorems.

(** ** Repeated undo *)

Section UndoTheorems.

Variable display_image : nat -> canvas -> ndarray -> bool.
Variable update_histogram : nat -> ndarray -> bool.

Local Abbreviation undos := (undo_times display_image update_histogram).

Lemma undo_times_succ k s :
  undos (S k) s = state_of (undo_action (display_image k) (update_histogram k) (undos k s)).
Proof. done. Qed.

(** The entries [k] undos leave, and what they do not touch. *)
Lemma undo_times_frame k : forall s,
  k <= length (history s) ->
  history (undos k s) = take (length (history s) - k) (history s) /\
  original_image (core (undos k s)) = original_image (core s) /\
  psnr_value (core (undos k s)) = psnr_value (core s) /\
  dct_coefficients (core (undos k s)) = dct_coefficients (core s).
Proof.
  induction k as [|k IH]; intros s Hk.
  - rewrite Nat.sub_0_r, take_ge by done. done.
  - destruct (IH s ltac:(lia)) as (Hh & Ho & Hps & Hd).
    rewrite undo_times_succ.
    set (s1 := undos k s) in *.
    assert (length (history s1) = length (history s) - k) as Hlen
      by (rewrite Hh, length_take; lia).
    destruct (history s1) as [|e0 l0 _] eqn:Hh1 using rev_ind;
      [simpl in Hlen; lia|].
    destruct (undo_action_pop (display_image k) (update_histogram k) s1 e0 l0 Hh1) as (Hc & Hh2 & _).
    rewrite Hh2, Hc. cbn [set_processed original_image psnr_value dct_coefficients].
    split; [|done].
    rewrite length_app in Hlen. simpl in Hlen.
    replace (length (history s) - S k) with (length l0) by lia.
    apply (f_equal (take (length l0))) in Hh.
    rewrite take_app_length, take_take in Hh.
    by replace (length l0 `min` (length (history s) - k)) with (length l0) in Hh by lia.
Qed.

(** [k] undos on a history of [n >= k >= 1] entries leave the first
    [n - k] entries and install the reconstruction of entry [n - k]: the
    first undo installs the latest entry. The original, the PSNR and the
    coefficient archive are not put back: they stay as they were before
    the first undo. All this however the drawing calls of each undo
    end. *)
Theorem undo_steps_back_through_the_history k s :
  0 < k -> k <= length (history s) ->
  let s' := undo_times display_image update_histogram k s in
  exists e,
    history s !! (length (history s) - k) = Some e /\
    processed_image (core s') = Some (entry_processed e) /\
    history s' = take (length (history s) - k) (history s) /\
    original_image (core s') = original_image (core s) /\
    psnr_value (core s') = psnr_value (core s) /\
    dct_coefficients (core s') = dct_coefficients (core s).
Proof.
  intros Hpos Hk s'. subst s'. destruct k as [|k]; [lia|].
  destruct (undo_times_frame k s ltac:(lia)) as (Hh & _).
  pose proof (undo_times_frame (S k) s Hk) as Hframe.
  rewrite undo_times_succ in *.
  set (s1 := undos k s) in *.
  assert (length (history s1) = length (history s) - k) as Hlen
    by (rewrite Hh, length_take; lia).
  destruct (history s1) as [|e0 l0 _] eqn:Hh1 using rev_ind;
    [simpl in Hlen; lia|].
  destruct (undo_action_pop (display_image k) (update_histogram k) s1 e0 l0 Hh1) as (Hc & _).
  exists e0. rewrite length_app in Hlen. simpl in Hlen.
  split.
  - assert ((l0 ++ [e0]) !! length l0 = Some e0) as Hl by apply list_lookup_middle, eq_refl.
    rewrite Hh in Hl. rewrite lookup_take_lt in Hl by lia.
    by replace (length (history s) - S k) with (length l0) by lia.
  - split; [by rewrite Hc|]. done.
Qed.

End UndoTheorems.

(** Whenever the history holds an entry the Undo button is enabled, in
    every state the application reaches from one with an empty history,
    whether the drawing calls return or raise. *)
Theorem undo_enabled_while_history s0 s :
  history s0 = [] ->
  rtc transition s0 s ->
  history s <> [] -> btn_undo (toolbar_buttons s) = true.
Proof.
  intros H0 Hrtc.
  assert (history s0 <> [] -> btn_undo (toolbar_buttons s0) = true) as Hinv
    by (by rewrite H0).
  clear H0. induction Hrtc as [s|s s1 s2 Hstep _ IH]; [done|].
  apply IH. clear IH. destruct Hstep as [display_image update_histogram now s|display_image update_histogram s
                       |display_image update_histogram imread getsize basename name s
                       |s s' Hh Hb].
  - unfold _update_after_dct.
    destruct (processed_image (core s)) as [p|] eqn:Hp; [|done].
    destruct (bgr2rgb p); [|done].
    destruct (display_image _ _); [|done]. destruct (update_histogram p); [|done].
    unfold add_to_history. cbn [core with_toolbar state_of]. rewrite Hp.
    by destruct (original_image (core s)).
  - destruct (history s) as [|e0 l0 _] eqn:Hh using rev_ind.
    + unfold undo_action. by rewrite Hh.
    + destruct (undo_action_pop display_image update_histogram s e0 l0 Hh) as (_ & -> & Hb).
      intros Hl0. rewrite Hb by done. apply Hinv. by destruct l0.
  - destruct (load_image_history display_image update_histogram imread getsize basename name s) as [-> ->]. done.
  - by rewrite Hh, Hb.
Qed.

(** ** The further theorems at concrete inputs *)


Lemma rect_example_other_plane : rect Sample.other_plane 2 2.
Proof. split; [reflexivity | repeat constructor]. Qed.

Lemma bgr_flat_image v : bgr_image (flat_image v) 2 2.
Proof. split; [split; [reflexivity | repeat constructor] | repeat constructor]. Qed.

Lemma eight_is_a_block_size : 8 ∈ [4; 8; 16; 32].
Proof. apply list_elem_of_further, list_elem_of_here. Qed.

Lemma no_prefs_recent_files : recent_files Sample.no_prefs = Some [].
Proof. unfold recent_files, Sample.no_prefs. cbn [settings]. by rewrite lookup_empty. Qed.

Lemma bad_prefs_recent_files : recent_files Sample.bad_prefs = None.
Proof.
  unfold recent_files, Sample.bad_prefs. cbn [settings]. by rewrite lookup_singleton_eq.
Qed.



Lemma blocks_are_independent_witness :
  rect Sample.plane 2 2 /\ rect Sample.other_plane 2 2 /\
  getZ (Sample.process_channel_dct Sample.plane 1 (1 # 2) "Uniform" (Store [] [])).1.1 0 0 =
  getZ (Sample.process_channel_dct Sample.other_plane 1 (1 # 2) "Uniform"
          (Store [[[1%Q]]] [])).1.1 0 0.
Proof.
  split; [exact rect_example_plane | split; [exact rect_example_other_plane|]].
  apply (blocks_are_independent Sample.dct2 Sample.dct2 Sample.resize_nearest
           Sample.plane Sample.other_plane 1 (1 # 2) "Uniform"
           (Store [] []) (Store [[[1%Q]]] []) 2 2 0 0
           rect_example_plane rect_example_other_plane); [lia|lia|lia|].
  intros r' c' Hr Hc Hor Hoc.
  destruct r' as [|[|r']]; [|discriminate Hor|lia].
  destruct c' as [|[|c']]; [reflexivity|discriminate Hoc|lia].
Defined.


Lemma custom_table_grows_from_one_witness :
  8 ∈ [4; 8; 16; 32] /\ 1 < 8 /\ 2 < 8 /\
  (getQ (create_custom_quantization_matrix 8) 1 2
   <= getQ (create_custom_quantization_matrix 8) 2 2)%Q.
Proof.
  assert (1 < 8) as H1 by lia. assert (2 < 8) as H2 by lia.
  split; [exact eight_is_a_block_size | split; [exact H1 | split; [exact H2|]]].
  destruct (custom_table_grows_from_one 8 1 2 eight_is_a_block_size H1 H2)
    as (_ & _ & _ & _ & Hrow & _).
  apply Hrow. lia.
Defined.


Lemma processing_starts_from_the_original_witness :
  original_image (Sample.loaded 50 "RGB" "Uniform") = Some Sample.image /\
  status_message (Sample.apply_dct (Sample.loaded 50 "RGB" "Uniform"))
    = "Processing completed"%string /\
  processed_image (Sample.apply_dct (Sample.apply_dct (Sample.loaded 50 "RGB" "Uniform")))
    = processed_image (Sample.apply_dct (Sample.loaded 50 "RGB" "Uniform")).
Proof.
  unfold Sample.apply_dct.
  assert (status_message
            (apply_dct Sample.dct2 Sample.dct2 Sample.resize_nearest Sample.same Sample.same
               Sample.luma Sample.log10 (Sample.loaded 50 "RGB" "Uniform"))
          = "Processing completed"%string) as Hdone by (vm_compute; reflexivity).
  split; [reflexivity | split; [exact Hdone|]].
  destruct (processing_starts_from_the_original Sample.dct2 Sample.dct2
              Sample.resize_nearest Sample.same Sample.same Sample.luma Sample.log10
              (Sample.loaded 50 "RGB" "Uniform")
              (apply_dct Sample.dct2 Sample.dct2 Sample.resize_nearest Sample.same Sample.same
                 Sample.luma Sample.log10 (Sample.loaded 50 "RGB" "Uniform"))
              Sample.image)
    as (_ & H & _); [reflexivity | vm_compute; reflexivity | vm_compute; reflexivity
                    | vm_compute; reflexivity | vm_compute; reflexivity
                    | vm_compute; reflexivity | exact Hdone | exact H].
Defined.




Lemma ratio_between_half_and_one_witness :
  (1 <= 50 <= 100)%Z /\
  exists r, ratio_of_level 50 = Some r /\ (1 # 2 < Ieee.to_Q r)%Q /\ (Ieee.to_Q r <= 1)%Q.
Proof.
  assert (1 <= 50 <= 100)%Z as H by lia.
  split; [exact H|].
  destruct (ratio_between_half_and_one 50 H) as (r & Hr & Hlo & Hhi & _).
  exists r. split; [exact Hr | split; [exact Hlo | exact Hhi]].
Defined.

Lemma ratio_above_the_slider_range_witness :
  (100 < 200 <= 300)%Z /\ ratio_of_level 200 = None.
Proof.
  assert (100 < 200 <= 300)%Z as H by lia.
  split; [exact H|].
  destruct (ratio_above_the_slider_range 200 H) as [Hnone _].
  apply Hnone. reflexivity.
Defined.

Lemma infinite_psnr_iff_multiples_of_16_witness :
  bgr_image (flat_image 200) 2 2 /\ bgr_image (flat_image 184) 2 2 /\
  (Z.of_nat (3 * (2 * 2)) < 2 ^ 45)%Z /\
  exists mse,
    np_mse (flat_image 200) (flat_image 184) = Some mse /\
    psnr_of_mse Sample.log10 mse = S754_infinity false.
Proof.
  assert (Z.of_nat (3 * (2 * 2)) < 2 ^ 45)%Z as Hsize by (vm_compute; reflexivity).
  split; [exact (bgr_flat_image 200) | split; [exact (bgr_flat_image 184) | split; [exact Hsize|]]].
  destruct (infinite_psnr_iff_multiples_of_16 Sample.log10 (flat_image 200) (flat_image 184)
              2 2 (bgr_flat_image 200) (bgr_flat_image 184) ltac:(lia) ltac:(lia) Hsize)
    as (mse & Hmse & _ & Hinf).
  exists mse. split; [exact Hmse|].
  apply Hinf. repeat constructor.
Defined.



Lemma add_to_recent_files_idempotent_witness :
  exists p1 p2,
    add_to_recent_files "flat.png" Sample.no_prefs = Some p1 /\
    add_to_recent_files "flat.png" p1 = Some p2 /\
    settings p2 = settings p1.
Proof.
  pose proof (add_to_recent_files_list "flat.png" Sample.no_prefs [] no_prefs_recent_files)
    as H1.
  destruct (add_to_recent_files_idempotent "flat.png" Sample.no_prefs _ H1)
    as (p2 & H2 & Heq).
  eexists _, p2. split; [exact H1 | split; [exact H2 | exact Heq]].
Defined.


Lemma clear_recent_files_empties_witness :
  settings Sample.bad_prefs !! "recent_files"%string = Some (JInt 3) /\
  recent_files (clear_recent_files Sample.bad_prefs) = Some [] /\
  clear_recent_files Sample.no_prefs = Sample.no_prefs.
Proof.
  assert (settings Sample.bad_prefs !! "recent_files"%string = Some (JInt 3)) as Hentry
    by apply lookup_singleton_eq.
  split; [exact Hentry|].
  destruct (clear_recent_files_empties Sample.bad_prefs) as [Hsome _].
  destruct (clear_recent_files_empties Sample.no_prefs) as [_ Hnone].
  split.
  - apply Hsome. rewrite Hentry. by eexists.
  - apply Hnone. apply lookup_empty.
Defined.

Lemma recent_files_are_most_recent_witness :
  recent_files Sample.no_prefs = Some [] /\
  exists p',
    open_files ["a.png"; "b.png"; "a.png"]%string Sample.no_prefs = Some p' /\
    recent_files p' = Some [JStr "a.png"; JStr "b.png"].
Proof.
  split; [exact no_prefs_recent_files|].
  destruct (recent_files_are_most_recent ["a.png"; "b.png"; "a.png"]%string Sample.no_prefs
              no_prefs_recent_files)
    as (p' & Hopen & Hrec).
  exists p'. split; [exact Hopen | exact Hrec].
Defined.

Lemma undo_after_a_run_restores_nothing_witness :
  is_Some (original_image
             (core (Sample.window (metrics_state (flat_image 200) (flat_image 184) 50)
                      Sample.no_prefs))) /\
  exists s1,
    Sample._update_after_dct "2024-01-01 10:00:00"
      (Sample.window (metrics_state (flat_image 200) (flat_image 184) 50) Sample.no_prefs)
      = Done s1 /\
    length (history s1) = 1 /\
    processed_image (core (state_of (Sample.undo_action s1))) = Some (flat_image 184) /\
    history (state_of (Sample.undo_action s1)) = [].
Proof.
  assert (is_Some (original_image
             (core (Sample.window (metrics_state (flat_image 200) (flat_image 184) 50)
                      Sample.no_prefs)))) as Ho by (eexists; reflexivity).
  split; [exact Ho|].
  eexists. split; [reflexivity|]. split; [reflexivity|].
  destruct (undo_after_a_run_restores_nothing Sample.draws Sample.histogram
              "2024-01-01 10:00:00"
              (Sample.window (metrics_state (flat_image 200) (flat_image 184) 50)
                 Sample.no_prefs) _ Ho eq_refl) as [Hc Hh].
  split; [|exact Hh].
  exact (f_equal processed_image Hc).
Defined.

Lemma undo_steps_back_through_the_history_witness :
  0 < 2 /\ 2 <= length (history Sample.two_runs) /\
  processed_image (core (Sample.undo_times 1 Sample.two_runs)) = Some (flat_image 184) /\
  processed_image (core (Sample.undo_times 2 Sample.two_runs)) = Some (flat_image 199).
Proof.
  assert (0 < 2) as H2 by lia. assert (0 < 1) as H1 by lia.
  assert (2 <= length (history Sample.two_runs)) as Hl by (simpl; lia).
  assert (1 <= length (history Sample.two_runs)) as Hl1 by (simpl; lia).
  split; [exact H2 | split; [exact Hl|]].
  destruct (undo_steps_back_through_the_history (fun _ => Sample.draws) (fun _ => Sample.histogram) 1
              Sample.two_runs H1 Hl1) as (e1 & He1 & Hp1 & _).
  destruct (undo_steps_back_through_the_history (fun _ => Sample.draws) (fun _ => Sample.histogram) 2
              Sample.two_runs H2 Hl) as (e2 & He2 & Hp2 & _).
  injection He1 as <-. injection He2 as <-.
  split; [exact Hp1 | exact Hp2].
Defined.

Lemma undo_enabled_while_history_witness :
  history (Sample.window (metrics_state (flat_image 200) (flat_image 184) 50)
             Sample.no_prefs) = [] /\
  btn_undo (toolbar_buttons
              (state_of (Sample._update_after_dct "2024-01-01 10:00:00"
                           (Sample.window (metrics_state (flat_image 200) (flat_image 184) 50)
                              Sample.no_prefs)))) = true.
Proof.
  split; [reflexivity|].
  apply (undo_enabled_while_history
           (Sample.window (metrics_state (flat_image 200) (flat_image 184) 50)
              Sample.no_prefs)).
  - reflexivity.
  - apply rtc_once. apply (after_run Sample.draws Sample.histogram).
  - discriminate.
Defined.

Lemma failed_load_discards_the_original_witness :
  Sample.imread "missing.png" = None /\
  original_image (core (Sample.load_image "missing.png" Sample.two_runs)) = None /\
  processed_image (core (Sample.load_image "missing.png" Sample.two_runs))
    = Some (flat_image 184).
Proof.
  split; [reflexivity|].
  destruct (failed_load_discards_the_original Sample.draws Sample.histogram Sample.imread
              Sample.getsize Sample.basename "missing.png" Sample.two_runs eq_refl)
    as (Ho & _ & Hp & _).
  split; [exact Ho | exact Hp].
Defined.

Lemma load_image_installs_the_file_witness :
  Sample.imread "flat.png" = Some (flat_image 200) /\
  recent_files (prefs Sample.two_runs) = Some [] /\
  original_image (core (Sample.load_image "flat.png" Sample.two_runs))
    = Some (flat_image 200) /\
  btn_save (toolbar_buttons (Sample.load_image "flat.png" Sample.two_runs)) = false /\
  processed_image (core (Sample.load_image "flat.png" Sample.two_runs))
    = Some (flat_image 184).
Proof.
  split; [reflexivity | split; [exact no_prefs_recent_files|]].
  destruct (load_image_installs_the_file Sample.draws Sample.histogram Sample.imread
              Sample.getsize Sample.basename "flat.png" Sample.two_runs
              (flat_image 200) (flat_image 200) 2048 []
              eq_refl eq_refl eq_refl eq_refl eq_refl no_prefs_recent_files)
    as (Ho & _ & _ & _ & Hsave & _ & _ & _ & Hp & _).
  split; [exact Ho | split; [exact Hsave | exact Hp]].
Defined.

Lemma load_image_with_bad_recent_files_witness :
  Sample.imread "flat.png" = Some (flat_image 200) /\
  recent_files Sample.bad_prefs = None /\
  original_image
    (core (Sample.load_image "flat.png"
             (Sample.window (Sample.loaded 50 "RGB" "Uniform") Sample.bad_prefs)))
    = Some (flat_image 200) /\
  status_message
    (core (Sample.load_image "flat.png"
             (Sample.window (Sample.loaded 50 "RGB" "Uniform") Sample.bad_prefs)))
    = "Error loading image"%string.
Proof.
  split; [reflexivity | split; [exact bad_prefs_recent_files|]].
  destruct (load_image_with_bad_recent_files Sample.draws Sample.histogram Sample.imread
              Sample.getsize Sample.basename "flat.png"
              (Sample.window (Sample.loaded 50 "RGB" "Uniform") Sample.bad_prefs)
              (flat_image 200) (flat_image 200) 2048
              eq_refl eq_refl eq_refl eq_refl eq_refl bad_prefs_recent_files)
    as (Ho & _ & _ & Hs & _).
  split; [exact Ho | exact Hs].
Defined.
